(** * include/crypto/if_alg.h: the user-space algorithm interface

    A shallow embedding of the AF_ALG socket header: the C integer
    conversions its inline functions go through, the structures they read,
    the send/receive headroom functions [af_alg_sndbuf], [af_alg_rcvbuf],
    the guards [af_alg_writable], [af_alg_readable] and the constants
    [ALG_MAX_PAGES] and [MAX_SGL_ENTS].

    The header only declares the functions that pin, queue, detach and
    release buffers and the type registry; those are modelled from the
    specification, over the header's structures, and marked as such. *)

From Stdlib Require Import ZArith Lia.
From stdpp Require Import base list gmap strings.

Local Open Scope Z_scope.

(** ** C integer conversions *)

Module C.

(** Conversion to [int]: reduction modulo 2^32 into [-2^31, 2^31). *)
Definition to_int (x : Z) : Z := (x + 2 ^ 31) mod 2 ^ 32 - 2 ^ 31.

(** Conversion to a [w]-bit unsigned type. *)
Definition to_unsigned (w x : Z) : Z := x mod 2 ^ w.

Definition is_int (x : Z) : Prop := - 2 ^ 31 <= x < 2 ^ 31.
Definition is_unsigned (w x : Z) : Prop := 0 <= x < 2 ^ w.

(** [max_t(int, x, y)]: both operands are converted to [int] first. *)
Definition max_t_int (x y : Z) : Z :=
  let max1 := to_int x in
  let max2 := to_int y in
  if max1 >? max2 then max1 else max2.

End C.

(** ** Target parameters

    [PAGE_SHIFT], [PAGE_SIZE] and [PAGE_MASK] come from the architecture's
    page header and [BITS_PER_LONG] from its word size; the header only
    uses them, so they are parameters here. *)

Class Arch := {
  BITS_PER_LONG : Z;
  PAGE_SHIFT : Z;
  PAGE_SIZE : Z;
  PAGE_MASK : Z
}.

(** What the page header guarantees: [PAGE_SIZE] is [1UL << PAGE_SHIFT],
    [PAGE_MASK] is [~(PAGE_SIZE - 1)] as an unsigned long, and a page size
    is a positive [int]. *)
Record ArchOk (a : Arch) : Prop := {
  long_bits : BITS_PER_LONG = 32 \/ BITS_PER_LONG = 64;
  page_shift_range : 0 <= PAGE_SHIFT <= 30;
  page_size_def : PAGE_SIZE = Z.shiftl 1 PAGE_SHIFT;
  page_mask_def :
    PAGE_MASK = C.to_unsigned BITS_PER_LONG (Z.lnot (PAGE_SIZE - 1))
}.

Definition x86_64 : Arch :=
  {| BITS_PER_LONG := 64; PAGE_SHIFT := 12; PAGE_SIZE := 4096;
     PAGE_MASK := 0xfffffffffffff000 |}.

Definition i386 : Arch :=
  {| BITS_PER_LONG := 32; PAGE_SHIFT := 12; PAGE_SIZE := 4096;
     PAGE_MASK := 0xfffff000 |}.

(** ** Structures *)

Definition ALG_MAX_PAGES : Z := 16.

(** The two fields of [struct sock] the header reads, both [int]. *)
Record sock := {
  sk_sndbuf : Z;
  sk_rcvbuf : Z
}.

(** [struct scatterlist] is declared elsewhere; an entry is a page (NULL
    once released), an offset in it and a length. *)
Record scatterlist := {
  sg_page : option nat;
  sg_offset : Z;
  sg_len : Z
}.

(** [struct af_alg_sgl]: [sg] has room for [ALG_MAX_PAGES + 1] entries,
    [pages] for [ALG_MAX_PAGES]. *)
Record af_alg_sgl := {
  sg : list scatterlist;
  pages : list nat;
  npages : Z
}.

(** [struct af_alg_tsgl], the TX SGL entry; the [list] link is the position
    in [tsgl_list]. *)
Record af_alg_tsgl := {
  cur : Z;
  tsg : list scatterlist
}.

(** [struct af_alg_rsgl], the RX SGL entry. *)
Record af_alg_rsgl := {
  sgl : af_alg_sgl;
  sg_num_bytes : Z
}.

(** [struct af_alg_ctx]; [used] and [rcvused] are [size_t]. *)
Record af_alg_ctx := {
  tsgl_list : list af_alg_tsgl;
  aead_assoclen : Z;
  used : Z;
  rcvused : Z;
  more : bool;
  merge : bool;
  enc : bool
}.

(** [struct alg_sock]: [struct sock] is its first member, which is what
    lets [alg_sk] cast a [struct sock *] to it; [private] points to the
    socket's [af_alg_ctx]. *)
Record alg_sock := {
  sk : sock;
  refcnt : Z;
  nokey_refcnt : Z;
  private : af_alg_ctx
}.

(** The values the C types admit. *)
Record sock_wf `{arch : Arch} (s : alg_sock) : Prop := {
  sndbuf_int : C.is_int (sk_sndbuf (sk s));
  rcvbuf_int : C.is_int (sk_rcvbuf (sk s));
  used_size_t : C.is_unsigned BITS_PER_LONG (used (private s));
  rcvused_size_t : C.is_unsigned BITS_PER_LONG (rcvused (private s))
}.

(** ** Inline functions *)

Section Inline.
Context `{arch : Arch}.

Definition to_ulong : Z -> Z := C.to_unsigned BITS_PER_LONG.
Definition to_size_t : Z -> Z := C.to_unsigned BITS_PER_LONG.

(** [alg_sk]: the cast from the embedded [struct sock] to its
    [struct alg_sock]; sockets are passed as the enclosing structure. *)
Definition alg_sk (s : alg_sock) : alg_sock := s.

(** [max_t(int, buf & PAGE_MASK, PAGE_SIZE)]: [buf] is promoted to
    unsigned long for the mask, and both operands are cast to [int]. *)
Definition page_quota (buf : Z) : Z :=
  C.max_t_int (Z.land (to_ulong buf) PAGE_MASK) PAGE_SIZE.

(** [max_t(int, quota - cnt, 0)]: the subtraction is done in [size_t],
    its result cast to [int]. *)
Definition headroom (quota cnt : Z) : Z :=
  C.max_t_int (to_size_t (to_size_t quota - cnt)) 0.

Definition af_alg_sndbuf (s : alg_sock) : Z :=
  let ask := alg_sk s in
  let ctx := private ask in
  headroom (page_quota (sk_sndbuf (sk s))) (used ctx).

(** [PAGE_SIZE <= af_alg_sndbuf(sk)], compared as unsigned long. *)
Definition af_alg_writable (s : alg_sock) : bool :=
  PAGE_SIZE <=? to_ulong (af_alg_sndbuf s).

Definition af_alg_rcvbuf (s : alg_sock) : Z :=
  let ask := alg_sk s in
  let ctx := private ask in
  headroom (page_quota (sk_rcvbuf (sk s))) (rcvused ctx).

Definition af_alg_readable (s : alg_sock) : bool :=
  PAGE_SIZE <=? to_ulong (af_alg_rcvbuf s).

End Inline.

(** [MAX_SGL_ENTS]: [sizeof] yields [size_t], so the whole expression is
    evaluated in [size_t]; the two structure sizes depend on the
    configuration and are parameters. *)
Definition MAX_SGL_ENTS `{arch : Arch}
    (sizeof_af_alg_tsgl sizeof_scatterlist : Z) : Z :=
  to_size_t
    (to_size_t (4096 - sizeof_af_alg_tsgl) / sizeof_scatterlist - 1).

(** ** Record updates *)

Definition set_ctx (s : alg_sock) (c : af_alg_ctx) : alg_sock :=
  {| sk := sk s; refcnt := refcnt s; nokey_refcnt := nokey_refcnt s;
     private := c |}.

Definition ctx_set_used (c : af_alg_ctx) (u : Z) : af_alg_ctx :=
  {| tsgl_list := tsgl_list c; aead_assoclen := aead_assoclen c;
     used := u; rcvused := rcvused c;
     more := more c; merge := merge c; enc := enc c |}.

Definition ctx_set_rcvused (c : af_alg_ctx) (u : Z) : af_alg_ctx :=
  {| tsgl_list := tsgl_list c; aead_assoclen := aead_assoclen c;
     used := used c; rcvused := u;
     more := more c; merge := merge c; enc := enc c |}.

Definition ctx_set_tx (c : af_alg_ctx) (l : list af_alg_tsgl) (u : Z)
    (mo me : bool) : af_alg_ctx :=
  {| tsgl_list := l; aead_assoclen := aead_assoclen c;
     used := u; rcvused := rcvused c;
     more := mo; merge := me; enc := enc c |}.

Definition set_used (s : alg_sock) (u : Z) : alg_sock :=
  set_ctx s (ctx_set_used (private s) u).

Definition set_rcvused (s : alg_sock) (u : Z) : alg_sock :=
  set_ctx s (ctx_set_rcvused (private s) u).

(** ** The quota in the specification's words

    The configured buffer size rounded down to a multiple of the page size
    and floored at one page; headroom is quota minus usage, clamped at 0. *)

Definition quota_spec `{arch : Arch} (buf : Z) : Z :=
  Z.max (PAGE_SIZE * (buf / PAGE_SIZE)) PAGE_SIZE.

Definition headroom_spec (quota cnt : Z) : Z := Z.max (quota - cnt) 0.

(** ** Error kinds *)

Inductive error :=
| ResourceExhausted
| WouldBlock
| Interrupted
| KeyRequired
| InvalidParameters
| TransformFailed.

(** ** Buffer Descriptor Pool *)

Fixpoint sg_bytes (l : list scatterlist) : Z :=
  match l with
  | [] => 0
  | e :: l' => sg_len e + sg_bytes l'
  end.

(** Modelled from the spec: the pinning loop of [af_alg_make_sg]. Ranges
    of the source are pinned one by one until [len] bytes are covered,
    [cap] entries are used or the source ends; a range without a page
    cannot be pinned. *)
Fixpoint pin_ranges (cap : nat) (src : list scatterlist) (len : Z)
    : option (list scatterlist) :=
  match cap, src with
  | O, _ => Some []
  | _, [] => Some []
  | S cap', r :: src' =>
      if len <=? 0 then Some []
      else
        match sg_page r with
        | None => None
        | Some p =>
            let plen := Z.min len (sg_len r) in
            match pin_ranges cap' src' (len - plen) with
            | None => None
            | Some ents =>
                Some ({| sg_page := Some p; sg_offset := sg_offset r;
                         sg_len := plen |} :: ents)
            end
        end
  end.

(** Modelled from the spec: [af_alg_make_sg] is only declared in the
    header. It pins up to [ALG_MAX_PAGES] ranges of the data source into
    one descriptor set, stops at the requested length or at the entry cap,
    and returns the bytes pinned; it fails with [ResourceExhausted] when
    the memory cannot be pinned. *)
Definition af_alg_make_sg (iter : list scatterlist) (len : Z)
    : error + (af_alg_sgl * Z) :=
  match pin_ranges (Z.to_nat ALG_MAX_PAGES) iter len with
  | None => inl ResourceExhausted
  | Some ents =>
      inr ({| sg := ents; pages := omap sg_page ents;
              npages := Z.of_nat (length ents) |},
           sg_bytes ents)
  end.

(** Modelled from the spec: [af_alg_free_sg] is only declared in the
    header. Releasing a descriptor set unpins each of its ranges; the
    result lists the pages put. *)
Definition af_alg_free_sg (l : af_alg_sgl) : list nat :=
  take (Z.to_nat (npages l)) (pages l).

(** ** Send-Side Accumulator *)

Fixpoint tsgl_bytes (l : list af_alg_tsgl) : Z :=
  match l with
  | [] => 0
  | t :: l' => sg_bytes (tsg t) + tsgl_bytes l'
  end.

(** Modelled from the spec: the append step of [af_alg_sendmsg]. It
    starts a new TX chunk, or extends the tail chunk when [mrg] is set and
    the tail still has room for the entries within [budget]. *)
Definition tsgl_append (l : list af_alg_tsgl) (mrg : bool) (budget : Z)
    (ents : list scatterlist) : list af_alg_tsgl :=
  let fresh := {| cur := Z.of_nat (length ents); tsg := ents |} in
  match last l with
  | Some t =>
      if mrg && (cur t + Z.of_nat (length ents) <=? budget)
      then removelast l ++
             [{| cur := cur t + Z.of_nat (length ents);
                 tsg := tsg t ++ ents |}]
      else l ++ [fresh]
  | None => l ++ [fresh]
  end.

(** Modelled from the spec: [af_alg_sendmsg] is only declared in the
    header. A non-blocking write is rejected with [WouldBlock] when the
    channel is not writable ([used] at the send quota) or when it would
    push [used] beyond the quota; nothing is pinned then and the context
    is left as it was. An accepted write pins its bytes, appends them to
    the TX list and adds the bytes accepted to [used]. *)
Definition af_alg_sendmsg `{arch : Arch} (s : alg_sock) (iter : list scatterlist)
    (size : Z) (more_flag : bool) (budget : Z)
    : (error + Z) * alg_sock :=
  if negb (af_alg_writable s) then (inl WouldBlock, s)
  else if af_alg_sndbuf s <? size then (inl WouldBlock, s)
  else
    match af_alg_make_sg iter size with
    | inl e => (inl e, s)
    | inr (d, n) =>
        let ctx := private s in
        let l := tsgl_append (tsgl_list ctx) (merge ctx) budget (sg d) in
        let spare :=
          match last l with
          | Some t => cur t <? budget
          | None => false
          end in
        (inr n, set_ctx s (ctx_set_tx ctx l (used ctx + n) more_flag spare))
    end.

Definition bytes_accepted (r : error + Z) : Z :=
  match r with
  | inl _ => 0
  | inr n => n
  end.

(** Modelled from the spec: the inner loop of [af_alg_pull_tsgl]. It
    detaches up to [n] bytes from the entries of one chunk, charging each
    detached piece to [u] as it goes: the result is the detached entries,
    the entries that stay, the bytes still to detach and the new [u]. An
    entry on the boundary is split. *)
Fixpoint pull_sg (ents : list scatterlist) (n u : Z)
    : list scatterlist * list scatterlist * Z * Z :=
  match ents with
  | [] => ([], [], n, u)
  | e :: rest =>
      if n <=? 0 then ([], ents, n, u)
      else
        let plen := Z.min n (sg_len e) in
        if plen <? sg_len e then
          ([{| sg_page := sg_page e; sg_offset := sg_offset e;
               sg_len := plen |}],
           {| sg_page := sg_page e; sg_offset := sg_offset e + plen;
              sg_len := sg_len e - plen |} :: rest,
           n - plen, u - plen)
        else
          let '(d, r, n', u') := pull_sg rest (n - plen) (u - plen) in
          (e :: d, r, n', u')
  end.

(** Modelled from the spec: the outer loop of [af_alg_pull_tsgl], over
    the chunk list from its head. A chunk whose entries are all detached
    leaves the list, a chunk cut by the boundary stays with what remains
    of it. *)
Fixpoint pull_chunks (l : list af_alg_tsgl) (n u : Z)
    : list scatterlist * list af_alg_tsgl * Z * Z :=
  match l with
  | [] => ([], [], n, u)
  | t :: l' =>
      if n <=? 0 then ([], l, n, u)
      else
        let '(d, r, n', u') := pull_sg (tsg t) n u in
        match r with
        | [] =>
            let '(d2, l2, n2, u2) := pull_chunks l' n' u' in
            (d ++ d2, l2, n2, u2)
        | _ :: _ =>
            (d, {| cur := Z.of_nat (length r); tsg := r |} :: l', n', u')
        end
  end.

(** Modelled from the spec: [af_alg_pull_tsgl] is only declared in the
    header. It removes [bytes] worth of leading TX data from the
    accumulator, hands the detached entries to the request ([dst]) and
    lowers [used] by what it detaches, as it detaches it. *)
Definition af_alg_pull_tsgl (s : alg_sock) (bytes : Z)
    : list scatterlist * alg_sock :=
  let ctx := private s in
  let '(dst, l, _, u) := pull_chunks (tsgl_list ctx) bytes (used ctx) in
  (dst, set_ctx s (ctx_set_tx ctx l u (more ctx) (merge ctx))).

(** ** Request Object and Receive-Side Collector *)

(** [struct af_alg_async_req]: the RX chunks it reserved, its private TX
    SGL and the number of output bytes the operation produced. *)
Record af_alg_async_req := {
  rsgl_list : list af_alg_rsgl;
  tsgl : list scatterlist;
  tsgl_entries : Z;
  outlen : Z
}.

Fixpoint rsgl_bytes (l : list af_alg_rsgl) : Z :=
  match l with
  | [] => 0
  | r :: l' => sg_num_bytes r + rsgl_bytes l'
  end.

(** Modelled from the spec: the loop of [af_alg_get_rsgl], one RX chunk
    per round. A round pins at most [maxsize - len] bytes of what is left
    of the caller's buffer, records the reserved size in [sg_num_bytes]
    and charges it to [rcvused]. The rounds stop when [maxsize] is
    reached, the buffer is used up, the receive side is not readable any
    more, or pinning fails; every round but the last takes at least one
    range, so [length msg] rounds are enough. *)
Fixpoint get_rsgl_loop `{arch : Arch} (rounds : nat) (s : alg_sock)
    (iter : list scatterlist) (maxsize len : Z) (acc : list af_alg_rsgl)
    : option error * alg_sock * list af_alg_rsgl * Z :=
  match rounds with
  | O => (None, s, acc, len)
  | S rounds' =>
      match iter with
      | [] => (None, s, acc, len)
      | _ :: _ =>
          if (len <? maxsize) && af_alg_readable s then
            match af_alg_make_sg iter (maxsize - len) with
            | inl e => (Some e, s, acc, len)
            | inr (d, n) =>
                get_rsgl_loop rounds'
                  (set_rcvused s (rcvused (private s) + n))
                  (drop (length (sg d)) iter) maxsize (len + n)
                  (acc ++ [{| sgl := d; sg_num_bytes := n |}])
            end
          else (None, s, acc, len)
      end
  end.

(** Modelled from the spec: [af_alg_get_rsgl] is only declared in the
    header. It reserves RX targets for a request out of the buffer the
    reader supplies, appending the chunks to the request; the result is
    the error if any, the socket, the request and the bytes reserved. *)
Definition af_alg_get_rsgl `{arch : Arch} (s : alg_sock) (msg : list scatterlist)
    (areq : af_alg_async_req) (maxsize : Z)
    : option error * alg_sock * af_alg_async_req * Z :=
  let '(e, s', new, len) :=
    get_rsgl_loop (length msg) s msg maxsize 0 [] in
  (e, s',
   {| rsgl_list := rsgl_list areq ++ new; tsgl := tsgl areq;
      tsgl_entries := tsgl_entries areq; outlen := outlen areq |},
   len).

(** Modelled from the spec: the bytes of output that land in a chunk
    when [avail] bytes are still to be handed out; the engine fills the
    chunks in order. *)
Definition bytes_filled (avail : Z) (r : af_alg_rsgl) : Z :=
  Z.max 0 (Z.min avail (sg_num_bytes r)).

(** Modelled from the spec: the drain loop of [af_alg_free_areq_sgls],
    from the head of the list. The filled bytes of each chunk go to the
    caller, its descriptor set is released and its reservation is taken
    off [rcvused]. The result is the new [rcvused], the bytes copied and
    the pages released. *)
Fixpoint drain_rsgls (l : list af_alg_rsgl) (avail rcv : Z)
    : Z * Z * list nat :=
  match l with
  | [] => (rcv, 0, [])
  | r :: l' =>
      let filled := bytes_filled avail r in
      let '(rcv', copied, put) :=
        drain_rsgls l' (avail - filled) (rcv - sg_num_bytes r) in
      (rcv', filled + copied, af_alg_free_sg (sgl r) ++ put)
  end.

(** Modelled from the spec: [af_alg_free_areq_sgls] is only declared in
    the header. When a request is finished its RX chunks are drained and
    its TX descriptor entries released; [used] was charged when the TX
    data was detached and is not touched here. The result is the socket,
    the bytes copied to the reader and the pages released. *)
Definition af_alg_free_areq_sgls (s : alg_sock) (areq : af_alg_async_req)
    : alg_sock * Z * list nat :=
  let '(rcv, copied, put) :=
    drain_rsgls (rsgl_list areq) (outlen areq) (rcvused (private s)) in
  (set_rcvused s rcv, copied,
   put ++ omap sg_page (take (Z.to_nat (tsgl_entries areq)) (tsgl areq))).

(** ** Type Registry

    Modelled from the spec: [af_alg_register_type], [af_alg_accept] and
    the per-category operations are only declared in the header. An entry
    carries the capabilities of [struct af_alg_type] (a NULL function
    pointer is [None]) and the flag telling whether a key is mandatory
    before first use; [accept_nokey] tells whether the category provides
    [accept_nokey] and [ops_nokey]. *)

Record af_alg_type := {
  setkey : option (list Z -> option error);
  setauthsize : option (Z -> option error);
  accept_nokey : bool;
  key_mandatory : bool;
  name : string
}.

(** Modelled from the spec: registration. An entry is immutable once
    registered. *)
Definition af_alg_register_type (reg : gmap string af_alg_type)
    (t : af_alg_type) : gmap string af_alg_type :=
  match reg !! name t with
  | Some _ => reg
  | None => <[name t := t]> reg
  end.

Definition af_alg_unregister_type (reg : gmap string af_alg_type)
    (t : af_alg_type) : gmap string af_alg_type :=
  delete (name t) reg.

Record channel := {
  ch_type : af_alg_type;
  ch_key : option (list Z);
  ch_authsize : option Z
}.

(** Modelled from the spec: lookup at channel-open time selects the
    capability set; the channel starts without a key. *)
Definition chan_open (reg : gmap string af_alg_type) (nm : string)
    : option channel :=
  match reg !! nm with
  | Some t => Some {| ch_type := t; ch_key := None; ch_authsize := None |}
  | None => None
  end.

Inductive chan_op :=
| OpSetKey (key : list Z)
| OpSetAuthSize (n : Z)
| OpWrite
| OpRead.

Definition is_data_op (op : chan_op) : bool :=
  match op with
  | OpWrite | OpRead => true
  | _ => false
  end.

(** Modelled from the spec: whether an operation is a set-key call that
    the category's set-key capability accepts; a category without the
    capability accepts none. *)
Definition key_accepted (t : af_alg_type) (op : chan_op) : bool :=
  match op with
  | OpSetKey key =>
      match setkey t with
      | Some f => bool_decide (f key = None)
      | None => false
      end
  | _ => false
  end.

(** Modelled from the spec: the gate in front of every data operation. *)
Definition key_gate (ch : channel) : option error :=
  let t := ch_type ch in
  if key_mandatory t && bool_decide (ch_key ch = None)
     && negb (accept_nokey t)
  then Some KeyRequired
  else None.

(** Modelled from the spec: one operation on a channel, with the error it
    reports if any. *)
Definition chan_step (ch : channel) (op : chan_op)
    : option error * channel :=
  match op with
  | OpSetKey key =>
      match setkey (ch_type ch) with
      | None => (Some InvalidParameters, ch)
      | Some f =>
          match f key with
          | Some e => (Some e, ch)
          | None =>
              (None, {| ch_type := ch_type ch; ch_key := Some key;
                        ch_authsize := ch_authsize ch |})
          end
      end
  | OpSetAuthSize n =>
      match setauthsize (ch_type ch) with
      | None => (Some InvalidParameters, ch)
      | Some f =>
          match f n with
          | Some e => (Some e, ch)
          | None =>
              (None, {| ch_type := ch_type ch; ch_key := ch_key ch;
                        ch_authsize := Some n |})
          end
      end
  | OpWrite | OpRead => (key_gate ch, ch)
  end.

Definition chan_run (ch : channel) (ops : list chan_op) : channel :=
  foldl (fun c op => snd (chan_step c op)) ch ops.

(** ** Concrete sockets *)

(** A socket with the given buffer sizes and usage counters and nothing
    queued. *)
Definition sock_with (sndbuf rcvbuf u r : Z) : alg_sock :=
  {| sk := {| sk_sndbuf := sndbuf; sk_rcvbuf := rcvbuf |};
     refcnt := 0; nokey_refcnt := 0;
     private :=
       {| tsgl_list := []; aead_assoclen := 0; used := u; rcvused := r;
          more := false; merge := false; enc := false |} |}.

(** A range of [len] bytes at the start of page [p]. *)
Definition range (p : nat) (len : Z) : scatterlist :=
  {| sg_page := Some p; sg_offset := 0; sg_len := len |}.

(** A socket holding 350 bytes of TX data in two chunks. *)
Definition tx_sock : alg_sock :=
  {| sk := {| sk_sndbuf := 8192; sk_rcvbuf := 8192 |};
     refcnt := 0; nokey_refcnt := 0;
     private :=
       {| tsgl_list :=
            [ {| cur := 2; tsg := [range 1 100; range 2 50] |};
              {| cur := 1; tsg := [range 3 200] |} ];
          aead_assoclen := 0; used := 350; rcvused := 0;
          more := false; merge := false; enc := false |} |}.

(** A request that has reserved nothing yet. *)
Definition empty_areq : af_alg_async_req :=
  {| rsgl_list := []; tsgl := []; tsgl_entries := 0; outlen := 0 |}.

Definition set_outlen (areq : af_alg_async_req) (n : Z)
    : af_alg_async_req :=
  {| rsgl_list := rsgl_list areq; tsgl := tsgl areq;
     tsgl_entries := tsgl_entries areq; outlen := n |}.

(** Two registered categories: a block cipher that needs its key before
    anything else, and a keyed hash that can be accepted without one. *)
Definition skcipher_type : af_alg_type :=
  {| setkey :=
       Some (fun key =>
               if bool_decide (length key = 16%nat) then None
               else Some InvalidParameters);
     setauthsize := None;
     accept_nokey := false;
     key_mandatory := true;
     name := "skcipher"%string |}.

Definition hash_type : af_alg_type :=
  {| setkey := Some (fun _ => None);
     setauthsize := None;
     accept_nokey := true;
     key_mandatory := true;
     name := "hash"%string |}.

Definition two_types : gmap string af_alg_type :=
  af_alg_register_type (af_alg_register_type ∅ skcipher_type) hash_type.

Definition fresh_channel (t : af_alg_type) : channel :=
  {| ch_type := t; ch_key := None; ch_authsize := None |}.

(** ** A channel over its life

    Modelled from the spec: the callers of the functions above (write,
    request submission, completion, close) are not in the header. A
    channel runs them on one socket; client calls and completion
    callbacks are serialised by the channel lock, so an execution is a
    sequence of events. The channel logs the ranges [af_alg_make_sg]
    pins, the ranges released and the pages the release functions put. *)

(** The ranges the TX list holds, in order. *)
Definition tsgl_ranges (l : list af_alg_tsgl) : list scatterlist :=
  concat (map tsg l).

(** The ranges [af_alg_free_sg] releases: the first [npages] entries. *)
Definition sgl_ranges (d : af_alg_sgl) : list scatterlist :=
  take (Z.to_nat (npages d)) (sg d).

Definition rsgl_ranges (l : list af_alg_rsgl) : list scatterlist :=
  concat (map (fun r => sgl_ranges (sgl r)) l).

(** The ranges the reservation of these chunks pinned. *)
Definition rsgl_pinned (l : list af_alg_rsgl) : list scatterlist :=
  concat (map (fun r => sg (sgl r)) l).

(** The ranges [af_alg_free_areq_sgls] releases: those of the RX chunks
    and the first [tsgl_entries] entries of the private TX SGL. *)
Definition areq_ranges (areq : af_alg_async_req) : list scatterlist :=
  rsgl_ranges (rsgl_list areq)
  ++ take (Z.to_nat (tsgl_entries areq)) (tsgl areq).

(** The bytes of a range, each named by its page and its offset there. *)
Definition sg_cells (e : scatterlist) : list (nat * Z) :=
  match sg_page e with
  | Some p => map (pair p) (seqZ (sg_offset e) (sg_len e))
  | None => []
  end.

Definition cells (l : list scatterlist) : list (nat * Z) :=
  concat (map sg_cells l).

Record conn := {
  c_sock : alg_sock;
  c_inflight : list af_alg_async_req;
  c_closed : bool;
  c_pinned : list scatterlist;
  c_released : list scatterlist;
  c_put : list nat
}.

Inductive conn_event :=
  (** a write of [size] bytes from [iter] *)
| CWrite (iter : list scatterlist) (size : Z) (more_flag : bool)
  (** a request over [bytes] bytes of TX data, its output going to at
      most [maxsize] bytes of [msg] *)
| CSubmit (bytes : Z) (msg : list scatterlist) (maxsize : Z)
  (** the engine completes the [i]-th request in flight, having filled
      [filled] bytes, with a status *)
| CComplete (i : nat) (filled : Z) (status : option error)
  (** the channel is closed *)
| CClose.

(** Modelled from the spec: a channel as it is opened, nothing queued and
    nothing charged. *)
Definition conn_open (sndbuf rcvbuf : Z) : conn :=
  {| c_sock := sock_with sndbuf rcvbuf 0 0; c_inflight := [];
     c_closed := false; c_pinned := []; c_released := []; c_put := [] |}.

(** Modelled from the spec: the effect of one event.
    - A write goes through [af_alg_sendmsg]; when it is accepted the
      ranges [af_alg_make_sg] pinned for it are logged.
    - A submission reserves the RX targets with [af_alg_get_rsgl]. If
      that fails, what was reserved is released at once with
      [af_alg_free_areq_sgls] and the TX list is left alone; otherwise the
      TX data is detached with [af_alg_pull_tsgl] and the request, owning
      both, is in flight.
    - A completion, whatever its status and whether or not the channel is
      closed, releases the request with [af_alg_free_areq_sgls].
    - Closing releases what the TX list holds; requests in flight keep
      what they own until their completion arrives.
    An event that does not apply (a write or submission on a closed
    channel, the completion of a request that is not in flight) changes
    nothing. *)
Definition conn_step `{arch : Arch} (budget : Z) (c : conn)
    (ev : conn_event) : conn :=
  match ev with
  | CWrite iter size more_flag =>
      if c_closed c then c
      else
        match af_alg_sendmsg (c_sock c) iter size more_flag budget,
              af_alg_make_sg iter size with
        | (inr _, s'), inr (d, _) =>
            {| c_sock := s'; c_inflight := c_inflight c;
               c_closed := c_closed c;
               c_pinned := c_pinned c ++ sg d;
               c_released := c_released c; c_put := c_put c |}
        | _, _ => c
        end
  | CSubmit bytes msg maxsize =>
      if c_closed c then c
      else
        let '(e, s1, areq1, _) :=
          af_alg_get_rsgl (c_sock c) msg empty_areq maxsize in
        match e with
        | Some _ =>
            let '(s2, _, put) := af_alg_free_areq_sgls s1 areq1 in
            {| c_sock := s2; c_inflight := c_inflight c;
               c_closed := c_closed c;
               c_pinned := c_pinned c ++ rsgl_pinned (rsgl_list areq1);
               c_released := c_released c ++ areq_ranges areq1;
               c_put := c_put c ++ put |}
        | None =>
            let '(dst, s2) := af_alg_pull_tsgl s1 bytes in
            let areq :=
              {| rsgl_list := rsgl_list areq1; tsgl := dst;
                 tsgl_entries := Z.of_nat (length dst); outlen := 0 |} in
            {| c_sock := s2; c_inflight := c_inflight c ++ [areq];
               c_closed := c_closed c;
               c_pinned := c_pinned c ++ rsgl_pinned (rsgl_list areq1);
               c_released := c_released c; c_put := c_put c |}
        end
  | CComplete i filled _ =>
      match c_inflight c !! i with
      | None => c
      | Some areq =>
          let '(s', _, put) :=
            af_alg_free_areq_sgls (c_sock c) (set_outlen areq filled) in
          {| c_sock := s'; c_inflight := delete i (c_inflight c);
             c_closed := c_closed c; c_pinned := c_pinned c;
             c_released := c_released c ++ areq_ranges areq;
             c_put := c_put c ++ put |}
      end
  | CClose =>
      if c_closed c then c
      else
        let ctx := private (c_sock c) in
        let held := tsgl_ranges (tsgl_list ctx) in
        {| c_sock := set_ctx (c_sock c) (ctx_set_tx ctx [] 0 false false);
           c_inflight := c_inflight c; c_closed := true;
           c_pinned := c_pinned c;
           c_released := c_released c ++ held;
           c_put := c_put c ++ omap sg_page held |}
  end.

Definition conn_run `{arch : Arch} (budget sndbuf rcvbuf : Z)
    (evs : list conn_event) : conn :=
  foldl (conn_step budget) (conn_open sndbuf rcvbuf) evs.

(** The ranges still held: by the TX list and by the requests in flight. *)
Definition conn_held (c : conn) : list scatterlist :=
  tsgl_ranges (tsgl_list (private (c_sock c)))
  ++ concat (map areq_ranges (c_inflight c)).


(** A range that cannot be pinned. *)
Definition unpinnable_range : scatterlist :=
  {| sg_page := None; sg_offset := 0; sg_len := 8 |}.

(** A write of 150 bytes in two ranges, a request over the first 120, its
    completion, and the close. *)
Definition split_events : list conn_event :=
  [CWrite [range 1 100; range 2 50] 150 false;
   CSubmit 120 [] 0;
   CComplete 0 0 None;
   CClose].

Definition mixed_events : list conn_event :=
  [CWrite [range 1 100; range 2 50] 150 true;
   CWrite [range 3 30] 30 false;
   CSubmit 120 [range 10 64; range 11 64] 100;
   CSubmit 10 (map (fun p => range p 10) (seq 20 16) ++ [unpinnable_range])
     1000;
   CClose;
   CWrite [range 4 1] 1 false;
   CComplete 0 7 (Some TransformFailed)].

(** ** Well-formedness predicates and invariants *)

(** Entry lengths are [unsigned int] in C. *)
Definition sg_nonneg (l : list scatterlist) : Prop :=
  Forall (fun e => 0 <= sg_len e) l.

Definition tsgl_nonneg (l : list af_alg_tsgl) : Prop :=
  Forall (fun t => sg_nonneg (tsg t)) l.


(** A one-byte range on page [p]. *)
Definition byte_range (p : nat) : scatterlist :=
  {| sg_page := Some p; sg_offset := 0; sg_len := 1 |}.



(** * Properties *)

(** ** Integer conversions *)

Lemma to_int_id x : C.is_int x -> C.to_int x = x.
Proof. unfold C.is_int, C.to_int. intros Hx. rewrite Z.mod_small; lia. Qed.

Lemma to_int_range x : C.is_int (C.to_int x).
Proof.
  unfold C.is_int, C.to_int.
  assert (Hpos : 0 < 2 ^ 32) by lia.
  pose proof (Z.mod_pos_bound (x + 2 ^ 31) (2 ^ 32) Hpos). lia.
Qed.

Lemma to_int_shift x k : C.to_int (x + k * 2 ^ 32) = C.to_int x.
Proof.
  unfold C.to_int. f_equal.
  replace (x + k * 2 ^ 32 + 2 ^ 31) with (x + 2 ^ 31 + k * 2 ^ 32) by lia.
  apply Z_mod_plus_full.
Qed.

Lemma max_t_int_max x y : C.max_t_int x y = Z.max (C.to_int x) (C.to_int y).
Proof.
  unfold C.max_t_int. cbv zeta.
  destruct (Z.gtb_spec (C.to_int x) (C.to_int y)); lia.
Qed.

(** ** The quota functions *)

Section Quota.
Context `{arch : Arch} (ok : ArchOk arch).

Lemma long_pow : exists k, 2 ^ BITS_PER_LONG = k * 2 ^ 32 /\ 0 < k.
Proof.
  destruct (long_bits _ ok) as [-> | ->].
  - exists 1. lia.
  - exists (2 ^ 32). lia.
Qed.

Lemma long_pos : 0 <= BITS_PER_LONG.
Proof. destruct (long_bits _ ok) as [-> | ->]; lia. Qed.

Lemma to_int_unsigned x :
  C.to_int (C.to_unsigned BITS_PER_LONG x) = C.to_int x.
Proof.
  destruct long_pow as (k & Hk & Hpos).
  unfold C.to_unsigned.
  rewrite (Z.mod_eq x (2 ^ BITS_PER_LONG)) by lia.
  rewrite Hk.
  replace (x - k * 2 ^ 32 * (x / (k * 2 ^ 32)))
    with (x + (- (k * (x / (k * 2 ^ 32)))) * 2 ^ 32) by lia.
  apply to_int_shift.
Qed.

Lemma page_size_pow : PAGE_SIZE = 2 ^ PAGE_SHIFT.
Proof. rewrite (page_size_def _ ok), Z.shiftl_1_l. reflexivity. Qed.

Lemma page_size_bounds : 0 < PAGE_SIZE <= 2 ^ 30.
Proof.
  rewrite page_size_pow. pose proof (page_shift_range _ ok) as Hr.
  split; [apply Z.pow_pos_nonneg; lia |].
  apply Z.pow_le_mono_r; lia.
Qed.

(** Rounding an [int] down to a page multiple stays an [int]. *)
Lemma page_round_int s :
  C.is_int s -> C.is_int (PAGE_SIZE * (s / PAGE_SIZE)).
Proof.
  unfold C.is_int. intros Hs.
  pose proof page_size_bounds as Hp.
  pose proof (page_shift_range _ ok) as Hr.
  assert (Hdiv : 2 ^ 31 = PAGE_SIZE * 2 ^ (31 - PAGE_SHIFT)).
  { rewrite page_size_pow, <- Z.pow_add_r by lia. f_equal. lia. }
  assert (H0 : 0 < PAGE_SIZE) by lia.
  pose proof (Z.mul_div_le s PAGE_SIZE H0).
  split; [| lia].
  assert (- 2 ^ (31 - PAGE_SHIFT) <= s / PAGE_SIZE).
  { apply Z.div_le_lower_bound; [lia |].
    rewrite Z.mul_opp_r, <- Hdiv. lia. }
  nia.
Qed.

(** [PAGE_SIZE * (s / PAGE_SIZE)] is the greatest page multiple not
    above [s]. *)
Lemma page_round_greatest s k :
  PAGE_SIZE * k <= s -> PAGE_SIZE * k <= PAGE_SIZE * (s / PAGE_SIZE) <= s.
Proof.
  intros Hk. pose proof page_size_bounds as Hp.
  assert (H0 : 0 < PAGE_SIZE) by lia.
  pose proof (Z.mul_div_le s PAGE_SIZE H0).
  assert (k <= s / PAGE_SIZE) by (apply Z.div_le_lower_bound; lia).
  nia.
Qed.

Lemma land_unsigned x y :
  Z.land (C.to_unsigned BITS_PER_LONG x) (C.to_unsigned BITS_PER_LONG y)
  = C.to_unsigned BITS_PER_LONG (Z.land x y).
Proof.
  pose proof long_pos as Hw. unfold C.to_unsigned.
  rewrite <- !Z.land_ones by lia.
  apply Z.bits_inj'. intros n Hn. rewrite !Z.land_spec.
  destruct (Z.testbit x n), (Z.testbit y n), (Z.testbit _ n); reflexivity.
Qed.

Lemma land_page_mask s :
  C.to_int (Z.land (to_ulong s) PAGE_MASK)
  = C.to_int (PAGE_SIZE * (s / PAGE_SIZE)).
Proof.
  pose proof (page_shift_range _ ok) as Hr.
  rewrite (page_mask_def _ ok). unfold to_ulong.
  rewrite land_unsigned, to_int_unsigned. f_equal.
  rewrite page_size_pow.
  replace (2 ^ PAGE_SHIFT - 1) with (Z.ones PAGE_SHIFT)
    by (rewrite Z.ones_equiv; lia).
  rewrite <- Z.ldiff_land.
  rewrite Z.ldiff_ones_r, Z.shiftl_mul_pow2, Z.shiftr_div_pow2 by lia.
  lia.
Qed.

Lemma page_quota_spec s : C.is_int s -> page_quota s = quota_spec s.
Proof.
  intros Hs. unfold page_quota, quota_spec.
  rewrite max_t_int_max, land_page_mask.
  rewrite (to_int_id _ (page_round_int s Hs)).
  rewrite (to_int_id PAGE_SIZE); [reflexivity |].
  pose proof page_size_bounds. unfold C.is_int. lia.
Qed.

Lemma quota_spec_bounds s :
  C.is_int s -> PAGE_SIZE <= quota_spec s < 2 ^ 31.
Proof.
  intros Hs. pose proof (page_round_int s Hs) as Hr.
  pose proof page_size_bounds. unfold quota_spec, C.is_int in *. lia.
Qed.

Lemma headroom_to_int q cnt :
  headroom q cnt = Z.max (C.to_int (q - cnt)) 0.
Proof.
  unfold headroom, to_size_t. rewrite max_t_int_max, to_int_unsigned.
  f_equal.
  destruct long_pow as (k & Hk & Hpos).
  unfold C.to_unsigned. rewrite (Z.mod_eq q) by lia. rewrite Hk.
  replace (q - k * 2 ^ 32 * (q / (k * 2 ^ 32)) - cnt)
    with (q - cnt + (- (k * (q / (k * 2 ^ 32)))) * 2 ^ 32) by lia.
  apply to_int_shift.
Qed.

Lemma headroom_exact q cnt :
  C.is_int q -> 0 <= cnt <= q + 2 ^ 31 ->
  headroom q cnt = headroom_spec q cnt.
Proof.
  intros Hq Hc. rewrite headroom_to_int. unfold headroom_spec.
  rewrite to_int_id; [reflexivity |]. unfold C.is_int in *. lia.
Qed.

Lemma headroom_nonneg q cnt : 0 <= headroom q cnt < 2 ^ 31.
Proof.
  rewrite headroom_to_int. pose proof (to_int_range (q - cnt)) as Hr.
  unfold C.is_int in Hr. lia.
Qed.

Lemma to_ulong_headroom q cnt : to_ulong (headroom q cnt) = headroom q cnt.
Proof.
  pose proof (headroom_nonneg q cnt) as Hh.
  unfold to_ulong, C.to_unsigned. apply Z.mod_small.
  destruct (long_bits _ ok) as [-> | ->]; lia.
Qed.

Lemma writable_iff s :
  af_alg_writable s = true <-> PAGE_SIZE <= af_alg_sndbuf s.
Proof.
  unfold af_alg_writable, af_alg_sndbuf. cbv zeta.
  rewrite to_ulong_headroom. apply Z.leb_le.
Qed.

Lemma readable_iff s :
  af_alg_readable s = true <-> PAGE_SIZE <= af_alg_rcvbuf s.
Proof.
  unfold af_alg_readable, af_alg_rcvbuf. cbv zeta.
  rewrite to_ulong_headroom. apply Z.leb_le.
Qed.

Lemma headroom_quota buf cnt :
  C.is_int buf -> 0 <= cnt <= quota_spec buf + 2 ^ 31 ->
  headroom (page_quota buf) cnt = headroom_spec (quota_spec buf) cnt.
Proof.
  intros Hb Hc. rewrite page_quota_spec by done.
  pose proof (quota_spec_bounds buf Hb) as Hq.
  pose proof page_size_bounds.
  apply headroom_exact; [unfold C.is_int; lia | done].
Qed.

Lemma headroom_antitone buf u1 u2 :
  C.is_int buf -> 0 <= u1 <= u2 -> u2 <= quota_spec buf + 2 ^ 31 ->
  headroom (page_quota buf) u2 <= headroom (page_quota buf) u1.
Proof.
  intros Hb H1 H2. rewrite !headroom_quota by (done || lia).
  unfold headroom_spec. lia.
Qed.

Lemma sndbuf_within_quota s :
  sock_wf s -> used (private s) <= quota_spec (sk_sndbuf (sk s)) ->
  af_alg_sndbuf s = quota_spec (sk_sndbuf (sk s)) - used (private s).
Proof.
  intros [Hs _ Hu _] Hle. unfold C.is_unsigned in Hu.
  unfold af_alg_sndbuf, alg_sk. cbv zeta.
  rewrite headroom_quota by (done || lia). unfold headroom_spec. lia.
Qed.

(** C2 (amended). In every socket state [af_alg_sndbuf] and
    [af_alg_rcvbuf] are non-negative. Whenever the usage counter is at
    most 2^31 above its quota (the buffer size rounded down to a page
    multiple and floored at one page), the function returns exactly
    quota minus usage clamped at 0, hence 0 once the counter has reached
    or exceeded the quota. *)
Theorem af_alg_buf_exact_in_range (s : alg_sock) :
  sock_wf s ->
  (0 <= af_alg_sndbuf s /\ 0 <= af_alg_rcvbuf s) /\
  (used (private s) <= quota_spec (sk_sndbuf (sk s)) + 2 ^ 31 ->
   af_alg_sndbuf s
     = headroom_spec (quota_spec (sk_sndbuf (sk s))) (used (private s)) /\
   (quota_spec (sk_sndbuf (sk s)) <= used (private s) ->
    af_alg_sndbuf s = 0)) /\
  (rcvused (private s) <= quota_spec (sk_rcvbuf (sk s)) + 2 ^ 31 ->
   af_alg_rcvbuf s
     = headroom_spec (quota_spec (sk_rcvbuf (sk s))) (rcvused (private s)) /\
   (quota_spec (sk_rcvbuf (sk s)) <= rcvused (private s) ->
    af_alg_rcvbuf s = 0)).
Proof.
  intros [Hs Hr Hu Hv]. unfold af_alg_sndbuf, af_alg_rcvbuf, alg_sk.
  cbv zeta. unfold C.is_unsigned in Hu, Hv.
  split; [split; apply headroom_nonneg |].
  split; intros Hrange.
  - rewrite headroom_quota by (done || lia).
    split; [done |]. unfold headroom_spec. lia.
  - rewrite headroom_quota by (done || lia).
    split; [done |]. unfold headroom_spec. lia.
Qed.

(** C8. The quota [af_alg_sndbuf] and [af_alg_rcvbuf] subtract the usage
    from is the configured buffer size rounded down to a multiple of
    [PAGE_SIZE] and floored at [PAGE_SIZE]; so with [used = 0] the
    socket is writable and with [rcvused = 0] it is readable, whatever
    the configured sizes. *)
Theorem quota_page_rounded_floor (s : alg_sock) :
  sock_wf s ->
  af_alg_sndbuf s
    = headroom (quota_spec (sk_sndbuf (sk s))) (used (private s)) /\
  af_alg_rcvbuf s
    = headroom (quota_spec (sk_rcvbuf (sk s))) (rcvused (private s)) /\
  (used (private s) = 0 -> af_alg_writable s = true) /\
  (rcvused (private s) = 0 -> af_alg_readable s = true).
Proof.
  intros [Hs Hr Hu Hv].
  pose proof (quota_spec_bounds _ Hs) as Hqs.
  pose proof (quota_spec_bounds _ Hr) as Hqr.
  pose proof page_size_bounds as Hp.
  split_and!.
  - unfold af_alg_sndbuf, alg_sk. cbv zeta. by rewrite page_quota_spec.
  - unfold af_alg_rcvbuf, alg_sk. cbv zeta. by rewrite page_quota_spec.
  - intros H0. apply writable_iff. unfold af_alg_sndbuf, alg_sk. cbv zeta.
    rewrite H0, headroom_quota by (done || lia). unfold headroom_spec. lia.
  - intros H0. apply readable_iff. unfold af_alg_rcvbuf, alg_sk. cbv zeta.
    rewrite H0, headroom_quota by (done || lia). unfold headroom_spec. lia.
Qed.

(** C9 (amended). For a fixed buffer size and usage values
    [u1 <= u2] with [u2] at most 2^31 above the quota, the headroom at
    [u1] is at least the headroom at [u2], and a socket writable
    (readable) at [u2] is writable (readable) at [u1]. *)
Theorem af_alg_buf_antitone_in_range (s : alg_sock) (u1 u2 : Z) :
  C.is_int (sk_sndbuf (sk s)) -> C.is_int (sk_rcvbuf (sk s)) ->
  0 <= u1 <= u2 ->
  (u2 <= quota_spec (sk_sndbuf (sk s)) + 2 ^ 31 ->
   af_alg_sndbuf (set_used s u2) <= af_alg_sndbuf (set_used s u1) /\
   (af_alg_writable (set_used s u2) = true ->
    af_alg_writable (set_used s u1) = true)) /\
  (u2 <= quota_spec (sk_rcvbuf (sk s)) + 2 ^ 31 ->
   af_alg_rcvbuf (set_rcvused s u2) <= af_alg_rcvbuf (set_rcvused s u1) /\
   (af_alg_readable (set_rcvused s u2) = true ->
    af_alg_readable (set_rcvused s u1) = true)).
Proof.
  intros Hs Hr Hu. split; intros H2.
  - assert (Hle : af_alg_sndbuf (set_used s u2)
                  <= af_alg_sndbuf (set_used s u1))
      by (apply headroom_antitone; done).
    split; [done |]. rewrite !writable_iff. lia.
  - assert (Hle : af_alg_rcvbuf (set_rcvused s u2)
                  <= af_alg_rcvbuf (set_rcvused s u1))
      by (apply headroom_antitone; done).
    split; [done |]. rewrite !readable_iff. lia.
Qed.

(** C10. When the chunk header and one scatterlist slot fit in 4096
    bytes, a TX chunk node with [MAX_SGL_ENTS + 1] scatterlist slots
    fits in 4096 bytes, and no larger entry count does. *)
Theorem max_sgl_ents_fills_page
    (sizeof_af_alg_tsgl sizeof_scatterlist : Z) :
  0 <= sizeof_af_alg_tsgl -> 0 < sizeof_scatterlist ->
  sizeof_af_alg_tsgl + sizeof_scatterlist <= 4096 ->
  let m := MAX_SGL_ENTS sizeof_af_alg_tsgl sizeof_scatterlist in
  0 <= m /\
  sizeof_af_alg_tsgl + (m + 1) * sizeof_scatterlist <= 4096 /\
  (forall n : Z,
     sizeof_af_alg_tsgl + (n + 1) * sizeof_scatterlist <= 4096 -> n <= m).
Proof.
  intros HT HS Hfit m.
  assert (Hw : 4096 < 2 ^ BITS_PER_LONG)
    by (destruct (long_bits _ ok) as [-> | ->]; lia).
  set (q := (4096 - sizeof_af_alg_tsgl) / sizeof_scatterlist).
  assert (Hq1 : 1 <= q) by (apply Z.div_le_lower_bound; lia).
  assert (Hq2 : sizeof_scatterlist * q <= 4096 - sizeof_af_alg_tsgl)
    by (apply Z.mul_div_le; lia).
  assert (Hq3 : 4096 - sizeof_af_alg_tsgl < sizeof_scatterlist * (q + 1)).
  { pose proof (Z.mul_succ_div_gt (4096 - sizeof_af_alg_tsgl)
                  sizeof_scatterlist HS). unfold q. lia. }
  assert (Hm : m = q - 1).
  { unfold m, MAX_SGL_ENTS, to_size_t, C.to_unsigned.
    rewrite (Z.mod_small (4096 - _)) by lia. fold q.
    apply Z.mod_small. nia. }
  rewrite Hm. split; [lia |]. split; [nia |].
  intros n Hn. nia.
Qed.

End Quota.

(** ** The two targets *)

Lemma x86_64_ok : ArchOk x86_64.
Proof. split; cbn; [right | lia | | ]; reflexivity. Defined.

Lemma i386_ok : ArchOk i386.
Proof. split; cbn; [left | lia | | ]; reflexivity. Defined.

Ltac solve_sock_wf :=
  split; cbn; unfold C.is_int, C.is_unsigned; cbn; lia.

(** With 4 GiB charged against a one-page quota the [int] headroom wraps
    around to a full page: the usage exceeds the quota, quota minus usage
    clamped at 0 is 0, and the function returns 4096. *)
Lemma af_alg_sndbuf_wraps_x86_64 :
  let s := sock_with 4096 4096 (2 ^ 32) 0 in
  ArchOk x86_64 /\ sock_wf (arch := x86_64) s /\
  quota_spec (arch := x86_64) (sk_sndbuf (sk s)) <= used (private s) /\
  headroom_spec (quota_spec (arch := x86_64) (sk_sndbuf (sk s)))
    (used (private s)) = 0 /\
  af_alg_sndbuf (arch := x86_64) s = 4096.
Proof.
  cbv zeta. split_and!; [exact x86_64_ok | solve_sock_wf | | |].
  - vm_compute. discriminate.
  - reflexivity.
  - reflexivity.
Qed.

(** The same on a 32-bit target, just below the top of [size_t]. *)
Lemma af_alg_sndbuf_wraps_i386 :
  sock_wf (arch := i386) (sock_with 4096 4096 (2 ^ 32 - 1) 0) /\
  af_alg_sndbuf (arch := i386) (sock_with 4096 4096 (2 ^ 32 - 1) 0) = 4097.
Proof. split; [solve_sock_wf | reflexivity]. Qed.

Lemma af_alg_buf_exact_in_range_witness :
  sock_wf (arch := x86_64) (sock_with 8192 4096 10000 100) /\
  af_alg_sndbuf (arch := x86_64) (sock_with 8192 4096 10000 100) = 0 /\
  af_alg_rcvbuf (arch := x86_64) (sock_with 8192 4096 10000 100) = 3996.
Proof.
  assert (Hwf : sock_wf (arch := x86_64) (sock_with 8192 4096 10000 100))
    by solve_sock_wf.
  destruct (af_alg_buf_exact_in_range x86_64_ok _ Hwf) as (_ & Hs & Hr).
  split; [exact Hwf |]. split.
  - apply Hs; vm_compute; discriminate.
  - destruct Hr as [-> _]; [vm_compute; discriminate | reflexivity].
Defined.

Lemma quota_page_rounded_floor_witness :
  sock_wf (arch := x86_64) (sock_with 1 (-7) 0 0) /\
  af_alg_writable (arch := x86_64) (sock_with 1 (-7) 0 0) = true /\
  af_alg_readable (arch := x86_64) (sock_with 1 (-7) 0 0) = true.
Proof.
  assert (Hwf : sock_wf (arch := x86_64) (sock_with 1 (-7) 0 0))
    by solve_sock_wf.
  destruct (quota_page_rounded_floor x86_64_ok _ Hwf) as (_ & _ & Hw & Hr).
  split; [exact Hwf |]. split; [apply Hw | apply Hr]; reflexivity.
Defined.

(** Past the [int] range the headroom is not antitone: 4097 bytes against
    a one-page quota leave nothing and the socket is not writable, 4 GiB
    leave a page and it is. *)
Lemma af_alg_sndbuf_not_antitone_x86_64 :
  let s := sock_with 4096 4096 0 0 in
  ArchOk x86_64 /\
  sock_wf (arch := x86_64) (set_used s 4097) /\
  sock_wf (arch := x86_64) (set_used s (2 ^ 32)) /\
  4097 <= 2 ^ 32 /\
  af_alg_sndbuf (arch := x86_64) (set_used s 4097) = 0 /\
  af_alg_sndbuf (arch := x86_64) (set_used s (2 ^ 32)) = 4096 /\
  af_alg_writable (arch := x86_64) (set_used s (2 ^ 32)) = true /\
  af_alg_writable (arch := x86_64) (set_used s 4097) = false.
Proof.
  cbv zeta.
  split_and!; [exact x86_64_ok | solve_sock_wf | solve_sock_wf | lia | ..];
    reflexivity.
Qed.

Lemma af_alg_buf_antitone_in_range_witness :
  af_alg_sndbuf (arch := x86_64) (set_used (sock_with 8192 8192 0 0) 5000)
  <= af_alg_sndbuf (arch := x86_64) (set_used (sock_with 8192 8192 0 0) 100).
Proof.
  assert (Hs : C.is_int 8192) by (unfold C.is_int; lia).
  assert (Hu : 0 <= 100 <= 5000) by lia.
  destruct (af_alg_buf_antitone_in_range x86_64_ok
              (sock_with 8192 8192 0 0) 100 5000 Hs Hs Hu) as [Hsnd _].
  apply Hsnd. vm_compute. discriminate.
Defined.

Lemma max_sgl_ents_fills_page_witness :
  MAX_SGL_ENTS (arch := x86_64) 24 32 = 126 /\
  24 + (126 + 1) * 32 <= 4096 /\ 4096 < 24 + (127 + 1) * 32.
Proof.
  assert (HT : 0 <= 24) by lia.
  assert (HS : 0 < 32) by lia.
  assert (Hfit : 24 + 32 <= 4096) by lia.
  pose proof (max_sgl_ents_fills_page x86_64_ok 24 32 HT HS Hfit)
    as (_ & Hle & Hmax).
  split; [reflexivity |]. split; [exact Hle |].
  destruct (Z.lt_ge_cases 4096 (24 + (127 + 1) * 32)) as [Hlt | Hge];
    [exact Hlt |].
  specialize (Hmax 127 Hge). vm_compute in Hmax. by destruct Hmax.
Defined.

(** ** Buffer Descriptor Pool *)

Lemma sg_bytes_app l1 l2 : sg_bytes (l1 ++ l2) = sg_bytes l1 + sg_bytes l2.
Proof. induction l1 as [| e l1 IH]; cbn; lia. Qed.

Lemma sg_bytes_nonneg l : sg_nonneg l -> 0 <= sg_bytes l.
Proof. induction 1; cbn; lia. Qed.

Lemma pin_ranges_bounds cap src len ents :
  pin_ranges cap src len = Some ents ->
  (length ents <= cap)%nat /\ (length ents <= length src)%nat /\
  sg_bytes ents <= Z.max len 0 /\
  (sg_bytes ents < len -> length ents = cap \/ length ents = length src) /\
  Forall (fun e => is_Some (sg_page e)) ents.
Proof.
  revert src len ents. induction cap as [| cap IH]; intros src len ents.
  - destruct src; cbn; intros [= <-]; cbn; split_and!; auto with lia.
  - destruct src as [| r src]; cbn.
    { intros [= <-]; cbn; split_and!; auto with lia. }
    destruct (Z.leb_spec len 0).
    { intros [= <-]; cbn; split_and!; auto with lia. }
    destruct (sg_page r) as [p |] eqn:Hp; [| discriminate].
    destruct (pin_ranges cap src _) as [ents' |] eqn:Hrec; [| discriminate].
    intros ?; simplify_eq.
    destruct (IH _ _ _ Hrec) as (Hc & Hl & Hb & Hstop & Hall).
    cbn [sg_bytes sg_len length].
    split_and!; try lia.
    constructor; [by eexists | done].
Qed.

Lemma omap_length_all (l : list scatterlist) :
  Forall (fun e => is_Some (sg_page e)) l ->
  length (omap sg_page l) = length l.
Proof.
  induction 1 as [| e l [p Hp] _ IH]; cbn; [done |].
  rewrite Hp. cbn. by rewrite IH.
Qed.

Lemma make_sg_bounds iter len d n :
  af_alg_make_sg iter len = inr (d, n) ->
  npages d <= ALG_MAX_PAGES /\ n = sg_bytes (sg d) /\ n <= Z.max len 0.
Proof.
  unfold af_alg_make_sg.
  destruct (pin_ranges _ iter len) as [ents |] eqn:Hpin; [| discriminate].
  intros [= <- <-]. cbn [sg pages npages].
  destruct (pin_ranges_bounds _ _ _ _ Hpin) as (Hc & _ & Hb & _).
  change (Z.to_nat ALG_MAX_PAGES) with 16%nat in *. unfold ALG_MAX_PAGES.
  split_and!; lia.
Qed.

(** C3. A descriptor set made by [af_alg_make_sg] has at most
    [ALG_MAX_PAGES] = 16 pinned ranges; the bytes returned are the bytes
    pinned, never more than requested, and fewer than requested only when
    the 16-entry cap was hit or the source ran out. *)
Theorem af_alg_make_sg_capped (iter : list scatterlist) (len : Z)
    (d : af_alg_sgl) (n : Z) :
  af_alg_make_sg iter len = inr (d, n) ->
  npages d <= ALG_MAX_PAGES /\
  npages d = Z.of_nat (length (sg d)) /\
  length (pages d) = length (sg d) /\
  n = sg_bytes (sg d) /\
  n <= Z.max len 0 /\
  (n < len -> npages d = ALG_MAX_PAGES \/ length (sg d) = length iter).
Proof.
  unfold af_alg_make_sg.
  destruct (pin_ranges _ iter len) as [ents |] eqn:Hpin; [| discriminate].
  intros [= <- <-]. cbn [sg pages npages].
  destruct (pin_ranges_bounds _ _ _ _ Hpin) as (Hc & Hl & Hb & Hstop & Hall).
  change (Z.to_nat ALG_MAX_PAGES) with 16%nat in *. unfold ALG_MAX_PAGES.
  split_and!; try lia.
  by apply omap_length_all.
Qed.

(** Seventeen one-byte ranges: the cap stops the pinning at sixteen. *)
Lemma af_alg_make_sg_capped_witness :
  exists d,
    af_alg_make_sg (map byte_range (seq 0 17)) 17 = inr (d, 16) /\
    npages d <= ALG_MAX_PAGES /\ npages d = 16.
Proof.
  eexists. split; [reflexivity |].
  split; [| reflexivity].
  eapply (af_alg_make_sg_capped (map byte_range (seq 0 17)) 17 _ 16).
  reflexivity.
Defined.

(** ** Send-Side Accumulator *)

Lemma tsgl_bytes_nonneg l : tsgl_nonneg l -> 0 <= tsgl_bytes l.
Proof.
  induction 1 as [| t l Ht _ IH]; cbn; [lia |].
  pose proof (sg_bytes_nonneg _ Ht). lia.
Qed.

Lemma pull_sg_charge ents n u d r n' u' :
  pull_sg ents n u = (d, r, n', u') ->
  u' = u - sg_bytes d /\ n' = n - sg_bytes d /\
  sg_bytes d + sg_bytes r = sg_bytes ents.
Proof.
  revert n u d r n' u'.
  induction ents as [| e rest IH]; intros n u d r n' u'; cbn.
  - intros [= <- <- <- <-]. cbn. lia.
  - destruct (Z.leb_spec n 0).
    { intros [= <- <- <- <-]. cbn. lia. }
    destruct (Z.ltb_spec (Z.min n (sg_len e)) (sg_len e)).
    { intros [= <- <- <- <-]. cbn. lia. }
    destruct (pull_sg rest _ _) as [[[d1 r1] n1] u1] eqn:Hrec.
    intros [= <- <- <- <-].
    destruct (IH _ _ _ _ _ _ Hrec) as (-> & -> & Hsum).
    cbn. lia.
Qed.

Lemma pull_sg_exact ents n u d r n' u' :
  sg_nonneg ents -> 0 <= n ->
  pull_sg ents n u = (d, r, n', u') ->
  sg_bytes d = Z.min n (sg_bytes ents) /\ sg_nonneg r /\
  (r <> [] -> n' = 0).
Proof.
  intros Hwf. revert n u d r n' u'.
  induction Hwf as [| e rest He Hrest IH]; intros n u d r n' u' Hn; cbn.
  - intros [= <- <- <- <-]. cbn. split; [lia |]. split; [constructor | done].
  - pose proof (sg_bytes_nonneg _ Hrest) as Hb.
    destruct (Z.leb_spec n 0).
    { intros [= <- <- <- <-]. cbn. split; [lia |].
      split; [by constructor | lia]. }
    destruct (Z.ltb_spec (Z.min n (sg_len e)) (sg_len e)).
    { intros [= <- <- <- <-]. cbn. split; [lia |].
      split; [constructor; cbn; [lia | done] | lia]. }
    destruct (pull_sg rest _ _) as [[[d1 r1] n1] u1] eqn:Hrec.
    intros [= <- <- <- <-].
    assert (Hn' : 0 <= n - Z.min n (sg_len e)) by lia.
    destruct (IH _ _ _ _ _ _ Hn' Hrec) as (Hd & Hr & Hz).
    cbn. split; [lia | done].
Qed.

Lemma pull_chunks_charge l n u d l' n' u' :
  pull_chunks l n u = (d, l', n', u') ->
  u' = u - sg_bytes d /\ n' = n - sg_bytes d /\
  sg_bytes d + tsgl_bytes l' = tsgl_bytes l.
Proof.
  revert n u d l' n' u'.
  induction l as [| t l IH]; intros n u d l' n' u'; cbn.
  - intros [= <- <- <- <-]. cbn. lia.
  - destruct (Z.leb_spec n 0).
    { intros [= <- <- <- <-]. cbn. lia. }
    destruct (pull_sg (tsg t) n u) as [[[d1 r1] n1] u1] eqn:Hsg.
    destruct (pull_sg_charge _ _ _ _ _ _ _ Hsg) as (-> & -> & Hsum).
    destruct r1 as [| e r1].
    + destruct (pull_chunks l _ _) as [[[d2 l2] n2] u2] eqn:Hrec.
      intros [= <- <- <- <-].
      destruct (IH _ _ _ _ _ _ Hrec) as (-> & -> & Hsum2).
      rewrite sg_bytes_app. cbn in Hsum. lia.
    + intros [= <- <- <- <-]. cbn [tsgl_bytes tsg]. lia.
Qed.

Lemma pull_chunks_exact l n u d l' n' u' :
  tsgl_nonneg l -> 0 <= n ->
  pull_chunks l n u = (d, l', n', u') ->
  sg_bytes d = Z.min n (tsgl_bytes l).
Proof.
  intros Hwf. revert n u d l' n' u'.
  induction Hwf as [| t l Ht Hl IH]; intros n u d l' n' u' Hn; cbn.
  - intros [= <- <- <- <-]. cbn. lia.
  - pose proof (tsgl_bytes_nonneg _ Hl) as Hb.
    pose proof (sg_bytes_nonneg _ Ht) as Hbt.
    destruct (Z.leb_spec n 0).
    { intros [= <- <- <- <-]. cbn. lia. }
    destruct (pull_sg (tsg t) n u) as [[[d1 r1] n1] u1] eqn:Hsg.
    destruct (pull_sg_charge _ _ _ _ _ _ _ Hsg) as (Hu1 & Hn1 & Hsum).
    destruct (pull_sg_exact _ _ _ _ _ _ _ Ht Hn Hsg) as (Hd1 & Hr1 & Hz).
    destruct r1 as [| e r1].
    + destruct (pull_chunks l _ _) as [[[d2 l2] n2] u2] eqn:Hrec.
      intros [= <- <- <- <-].
      assert (Hn1' : 0 <= n1) by (cbn in Hsum; lia).
      pose proof (IH _ _ _ _ _ _ Hn1' Hrec) as Hd2.
      rewrite sg_bytes_app. cbn in Hsum. lia.
    + intros [= <- <- <- <-].
      assert (Hne : e :: r1 <> []) by done.
      specialize (Hz Hne). lia.
Qed.

(** ** Receive side and request release *)

Lemma rsgl_bytes_app l1 l2 :
  rsgl_bytes (l1 ++ l2) = rsgl_bytes l1 + rsgl_bytes l2.
Proof. induction l1 as [| r l1 IH]; cbn; lia. Qed.

Lemma drain_rsgls_charge l avail rcv :
  (drain_rsgls l avail rcv).1.1 = rcv - rsgl_bytes l.
Proof.
  revert avail rcv. induction l as [| r l IH]; intros avail rcv; cbn.
  - lia.
  - specialize (IH (avail - bytes_filled avail r) (rcv - sg_num_bytes r)).
    destruct (drain_rsgls l _ _) as [[rcv' copied] put]. cbn in *. lia.
Qed.

Lemma free_areq_sgls_ctx s areq :
  let s' := (af_alg_free_areq_sgls s areq).1.1 in
  used (private s') = used (private s) /\
  rcvused (private s') = rcvused (private s) - rsgl_bytes (rsgl_list areq) /\
  tsgl_list (private s') = tsgl_list (private s).
Proof.
  unfold af_alg_free_areq_sgls.
  pose proof (drain_rsgls_charge (rsgl_list areq) (outlen areq)
                (rcvused (private s))) as Hd.
  destruct (drain_rsgls _ _ _) as [[rcv copied] put]. cbn in *. by subst.
Qed.

(** C4. [af_alg_pull_tsgl] lowers [used] by exactly the bytes it
    detaches, in the call that detaches them: the TX list shrinks by the
    same amount, the amount is [bytes] whenever the list holds that much,
    and releasing the request later leaves [used] as it is. *)
Theorem af_alg_pull_tsgl_charges_at_detach (s : alg_sock) (bytes : Z) :
  let r := af_alg_pull_tsgl s bytes in
  used (private r.2) = used (private s) - sg_bytes r.1 /\
  tsgl_bytes (tsgl_list (private r.2))
    = tsgl_bytes (tsgl_list (private s)) - sg_bytes r.1 /\
  (tsgl_nonneg (tsgl_list (private s)) ->
   0 <= bytes <= tsgl_bytes (tsgl_list (private s)) ->
   sg_bytes r.1 = bytes) /\
  (forall areq : af_alg_async_req,
     used (private (af_alg_free_areq_sgls r.2 areq).1.1)
     = used (private r.2)).
Proof.
  unfold af_alg_pull_tsgl.
  destruct (pull_chunks _ _ _) as [[[dst l] n'] u] eqn:Hpull. cbn.
  destruct (pull_chunks_charge _ _ _ _ _ _ _ Hpull) as (Hu & Hn & Hsum).
  split_and!; [done | lia | |].
  - intros Hwf Hb.
    rewrite (pull_chunks_exact _ _ _ _ _ _ _ Hwf (proj1 Hb) Hpull). lia.
  - intros areq. apply free_areq_sgls_ctx.
Qed.

(** Detaching 120 of 350 queued bytes: the first entry goes whole, the
    second is split, and [used] drops to 230 at once. *)
Example af_alg_pull_tsgl_120 :
  let r := af_alg_pull_tsgl tx_sock 120 in
  r.1 = [range 1 100; range 2 20] /\
  used (private r.2) = 230 /\
  tsgl_bytes (tsgl_list (private r.2)) = 230.
Proof. cbv zeta. split_and!; reflexivity. Qed.

Section Rx.
Context `{arch : Arch}.


Lemma pin_ranges_progress cap r src len ents :
  0 < len -> pin_ranges (S cap) (r :: src) len = Some ents ->
  (1 <= length ents)%nat.
Proof.
  intros Hlen. simpl.
  destruct (Z.leb_spec len 0); [lia |].
  destruct (sg_page r); [| discriminate].
  destruct (pin_ranges cap src _); [| discriminate].
  intros [= <-]. cbn. lia.
Qed.

Lemma make_sg_progress r iter len d n :
  0 < len -> af_alg_make_sg (r :: iter) len = inr (d, n) ->
  (1 <= length (sg d))%nat.
Proof.
  intros Hlen. unfold af_alg_make_sg.
  change (Z.to_nat ALG_MAX_PAGES) with (S 15).
  destruct (pin_ranges (S 15) (r :: iter) len) as [ents |] eqn:Hpin;
    [| discriminate].
  intros [= <- _]. cbn [sg]. by eapply pin_ranges_progress.
Qed.

(** The rounds [af_alg_get_rsgl] allows are enough: more rounds give the
    same result. *)
Lemma get_rsgl_loop_fuel rounds k s iter maxsize len acc :
  (length iter <= rounds)%nat ->
  get_rsgl_loop (rounds + k) s iter maxsize len acc
  = get_rsgl_loop rounds s iter maxsize len acc.
Proof.
  revert s iter len acc.
  induction rounds as [| rounds IH]; intros s iter len acc Hfuel.
  - destruct iter; [| cbn in Hfuel; lia]. by destruct k.
  - cbn. destruct iter as [| r0 iter0]; [done |].
    destruct (Z.ltb_spec len maxsize); [| done]. cbn [andb].
    destruct (af_alg_readable s); [| done].
    destruct (af_alg_make_sg _ _) as [err | [d n]] eqn:Hmk; [done |].
    apply IH.
    assert (Hpos : 0 < maxsize - len) by lia.
    pose proof (make_sg_progress _ _ _ _ _ Hpos Hmk) as Hprog.
    rewrite length_drop. cbn in Hfuel |- *. lia.
Qed.

End Rx.

(** A read of up to 400 bytes into a 500-byte buffer reserves one chunk
    of 400 bytes; the operation fills 10 of them, the reader gets those
    10, and the whole reservation of 400 is taken off [rcvused]. *)
Example rcvused_reserved_400_filled_10 :
  let '(_, s', areq', len) :=
    af_alg_get_rsgl (arch := x86_64) (sock_with 8192 8192 0 0)
      [range 1 300; range 2 200] empty_areq 400 in
  len = 400 /\ rcvused (private s') = 400 /\
  map sg_num_bytes (rsgl_list areq') = [400] /\
  let '(s'', copied, _) := af_alg_free_areq_sgls s' (set_outlen areq' 10) in
  copied = 10 /\ rcvused (private s'') = 0.
Proof. vm_compute. split_and!; reflexivity. Qed.

(** ** Writes against the send quota *)

Section Write.
Context `{arch : Arch} (ok : ArchOk arch).

(** C1. On a session whose [used] is within its send quota, a write
    that would push [used] beyond the quota is rejected with
    [WouldBlock]: it accepts 0 bytes and leaves the context, TX list
    included, as it was; no write ever takes [used] past the quota. The
    guard [af_alg_writable] holds exactly when at least [PAGE_SIZE]
    bytes of send headroom remain, and a write on a socket that is not
    writable is rejected. *)
Theorem af_alg_sendmsg_rejects_beyond_quota (s : alg_sock)
    (iter : list scatterlist) (size : Z) (more_flag : bool) (budget : Z) :
  sock_wf s ->
  used (private s) <= quota_spec (sk_sndbuf (sk s)) ->
  let r := af_alg_sendmsg s iter size more_flag budget in
  (af_alg_writable s = true <->
   used (private s) + PAGE_SIZE <= quota_spec (sk_sndbuf (sk s))) /\
  (af_alg_writable s = false -> r = (inl WouldBlock, s)) /\
  (quota_spec (sk_sndbuf (sk s)) < used (private s) + size ->
   r = (inl WouldBlock, s) /\ bytes_accepted r.1 = 0) /\
  used (private r.2) <= quota_spec (sk_sndbuf (sk r.2)).
Proof.
  intros Hwf Hu r.
  pose proof (sndbuf_within_quota ok s Hwf Hu) as Hsnd.
  pose proof (writable_iff ok s) as Hw. rewrite Hsnd in Hw.
  assert (Hnw : af_alg_writable s = false -> r = (inl WouldBlock, s)).
  { intros Hf. unfold r, af_alg_sendmsg. by rewrite Hf. }
  split_and!.
  - rewrite Hw. lia.
  - done.
  - intros Hover.
    assert (Hr : r = (inl WouldBlock, s)).
    { destruct (af_alg_writable s) eqn:Hws; [| by apply Hnw].
      unfold r, af_alg_sendmsg. rewrite Hws. cbn [negb].
      destruct (Z.ltb_spec (af_alg_sndbuf s) size); [done | lia]. }
    by rewrite Hr.
  - unfold r, af_alg_sendmsg.
    destruct (negb (af_alg_writable s)); [done |].
    destruct (Z.ltb_spec (af_alg_sndbuf s) size); [done |].
    destruct (af_alg_make_sg iter size) as [e | [d n]] eqn:Hmk; [done |].
    destruct (make_sg_bounds _ _ _ _ Hmk) as (_ & _ & Hn).
    cbn. lia.
Qed.
End Write.

(** 4096 bytes used of a two-page quota: a write of 5000 bytes would end
    at 9096 and is turned away whole. *)
Lemma af_alg_sendmsg_rejects_beyond_quota_witness :
  let s := sock_with 8192 8192 4096 0 in
  sock_wf (arch := x86_64) s /\
  used (private s) <= quota_spec (arch := x86_64) (sk_sndbuf (sk s)) /\
  af_alg_sendmsg (arch := x86_64) s [range 1 4096; range 2 904] 5000 false 126
  = (inl WouldBlock, s).
Proof.
  cbv zeta.
  assert (Hwf : sock_wf (arch := x86_64) (sock_with 8192 8192 4096 0))
    by solve_sock_wf.
  assert (Hu : used (private (sock_with 8192 8192 4096 0))
               <= quota_spec (arch := x86_64)
                    (sk_sndbuf (sk (sock_with 8192 8192 4096 0))))
    by (vm_compute; discriminate).
  split; [exact Hwf |]. split; [exact Hu |].
  destruct (af_alg_sendmsg_rejects_beyond_quota x86_64_ok
              (sock_with 8192 8192 4096 0) [range 1 4096; range 2 904]
              5000 false 126 Hwf Hu) as (_ & _ & Hrej & _).
  apply Hrej. vm_compute. reflexivity.
Defined.

(** The same socket takes a write that fits: 4096 bytes are accepted and
    [used] reaches the quota. *)
Example af_alg_sendmsg_accepts_within_quota :
  let r := af_alg_sendmsg (arch := x86_64) (sock_with 8192 8192 4096 0)
             [range 1 4096] 4096 false 126 in
  r.1 = inr 4096 /\ used (private r.2) = 8192 /\
  af_alg_writable (arch := x86_64) r.2 = false.
Proof. cbv zeta. split_and!; reflexivity. Qed.

(** ** Pinned ranges over the life of a channel *)

















Section Conn.
Context `{arch : Arch}.










End Conn.


(** Byte for byte that execution is balanced: the two parts of the cut
    range are released once each. *)
Example split_detach_bytes_balanced :
  let c := conn_run (arch := x86_64) 126 8192 8192 split_events in
  c_released c
  = [range 1 100; range 2 20;
     {| sg_page := Some 2%nat; sg_offset := 20; sg_len := 30 |}] /\
  cells (c_released c) = cells (c_pinned c).
Proof. cbv zeta. split; vm_compute; reflexivity. Qed.

(** A merged write, a request with two RX targets, a reservation that
    fails after sixteen ranges, a close with the request in flight, a
    write turned away by the closed channel and the late, failed
    completion: 22 ranges put, nothing held, nothing charged. *)
Example close_with_request_in_flight :
  let c := conn_run (arch := x86_64) 126 8192 8192 mixed_events in
  c_put c
  = ([20; 21; 22; 23; 24; 25; 26; 27; 28; 29; 30; 31; 32; 33; 34; 35;
      2; 3; 10; 11; 1; 2])%nat /\
  conn_held c = [] /\
  used (private (c_sock c)) = 0 /\ rcvused (private (c_sock c)) = 0 /\
  length (cells (c_pinned c)) = 440%nat /\
  length (cells (c_released c)) = 440%nat.
Proof. cbv zeta. split_and!; vm_compute; reflexivity. Qed.

(** ** Type Registry *)

Lemma chan_step_type ch op : ch_type (chan_step ch op).2 = ch_type ch.
Proof.
  destruct op as [key | n | |]; cbn; try done.
  - destruct (setkey _) as [f |]; [| done]. by destruct (f key).
  - destruct (setauthsize _) as [f |]; [| done]. by destruct (f n).
Qed.

(** A set-key call the category turns down, like every operation that is
    not a set-key call, leaves the channel's key as it was. *)
Lemma chan_step_key ch op :
  key_accepted (ch_type ch) op = false ->
  ch_key (chan_step ch op).2 = ch_key ch.
Proof.
  destruct op as [key | n | |]; cbn; try done.
  - destruct (setkey _) as [f |]; [| done].
    destruct (f key) eqn:Hf; [done |]. by rewrite bool_decide_eq_false.
  - intros _. destruct (setauthsize _) as [f |]; [| done]. by destruct (f n).
Qed.

(** An accepted set-key call stores the key, and no operation removes a
    key once it is stored. *)
Lemma chan_step_key_set ch op :
  key_accepted (ch_type ch) op = true \/ is_Some (ch_key ch) ->
  is_Some (ch_key (chan_step ch op).2).
Proof.
  intros [Hacc | Hkey].
  - destruct op as [key | n | |]; cbn in *; try done.
    destruct (setkey _) as [f |]; [| done].
    apply bool_decide_eq_true in Hacc. rewrite Hacc. by eexists.
  - destruct op as [key | n | |]; cbn; try done.
    + destruct (setkey _) as [f |]; [| done].
      destruct (f key); [done | by eexists].
    + destruct (setauthsize _) as [f |]; [| done]. by destruct (f n).
Qed.

Lemma chan_run_type ch ops : ch_type (chan_run ch ops) = ch_type ch.
Proof.
  revert ch. unfold chan_run.
  induction ops as [| op ops IH]; intros ch; cbn; [done |].
  by rewrite IH, chan_step_type.
Qed.

Lemma chan_run_keyless ch ops :
  Forall (fun op => key_accepted (ch_type ch) op = false) ops ->
  ch_key (chan_run ch ops) = ch_key ch.
Proof.
  intros Hops. revert ch Hops. unfold chan_run.
  induction ops as [| op ops IH]; intros ch Hops; cbn; [done |].
  apply Forall_cons in Hops as [Hop Hops].
  rewrite IH by (by rewrite chan_step_type). by apply chan_step_key.
Qed.

Lemma chan_run_key_kept ch ops :
  is_Some (ch_key ch) -> is_Some (ch_key (chan_run ch ops)).
Proof.
  revert ch. unfold chan_run.
  induction ops as [| op ops IH]; intros ch Hkey; cbn; [done |].
  apply IH, chan_step_key_set. by right.
Qed.

Lemma chan_run_keyed ch ops :
  Exists (fun op => key_accepted (ch_type ch) op = true) ops ->
  is_Some (ch_key (chan_run ch ops)).
Proof.
  intros Hops. revert ch Hops. unfold chan_run.
  induction ops as [| op ops IH]; intros ch Hops; cbn.
  - by apply Exists_nil in Hops.
  - apply Exists_cons in Hops as [Hop | Hops].
    + apply (chan_run_key_kept _ ops), chan_step_key_set. by left.
    + apply IH. by rewrite chan_step_type.
Qed.

Lemma chan_open_fresh reg nm ch :
  chan_open reg nm = Some ch ->
  reg !! nm = Some (ch_type ch) /\ ch_key ch = None.
Proof.
  unfold chan_open. destruct (reg !! nm) as [t |]; [| done].
  by intros [= <-].
Qed.

(** C7. On a channel opened for a category whose key is mandatory, as
    long as no key has been set (whatever operations came before, failed
    attempts to set a key included) every data operation fails with
    [KeyRequired], unless the category provides key-less acceptance, in
    which case the operation proceeds. Once a set-key call has been
    accepted, data operations proceed. *)
Theorem key_required_before_setkey (reg : gmap string af_alg_type)
    (nm : string) (ch : channel) (ops : list chan_op) (op : chan_op) :
  chan_open reg nm = Some ch ->
  key_mandatory (ch_type ch) = true ->
  is_data_op op = true ->
  (Forall (fun o => key_accepted (ch_type ch) o = false) ops ->
   (chan_step (chan_run ch ops) op).1
   = if accept_nokey (ch_type ch) then None else Some KeyRequired) /\
  (Exists (fun o => key_accepted (ch_type ch) o = true) ops ->
   (chan_step (chan_run ch ops) op).1 = None).
Proof.
  intros Hopen Hkey Hop.
  destruct (chan_open_fresh _ _ _ Hopen) as [_ Hnone].
  pose proof (chan_run_type ch ops) as Ht.
  assert (Hgate : (chan_step (chan_run ch ops) op).1
                  = key_gate (chan_run ch ops)) by (by destruct op).
  rewrite Hgate. unfold key_gate. rewrite Ht, Hkey. split.
  - intros Hops. rewrite (chan_run_keyless ch ops Hops), Hnone. cbn.
    by destruct (accept_nokey _).
  - intros Hops. destruct (chan_run_keyed ch ops Hops) as [k ->]. done.
Qed.

(** A cipher channel: a key of the wrong length is turned down, an
    authentication size cannot be set, a read fails, and the write still
    fails for want of a key. *)
Lemma key_required_before_setkey_witness :
  chan_open two_types "skcipher" = Some (fresh_channel skcipher_type) /\
  (chan_step (fresh_channel skcipher_type) (OpSetKey [1; 2; 3])).1
  = Some InvalidParameters /\
  (chan_step
     (chan_run (fresh_channel skcipher_type)
        [OpSetKey [1; 2; 3]; OpSetAuthSize 16; OpRead])
     OpWrite).1 = Some KeyRequired.
Proof.
  assert (Hopen : chan_open two_types "skcipher"
                  = Some (fresh_channel skcipher_type))
    by (vm_compute; reflexivity).
  split; [exact Hopen |]. split; [reflexivity |].
  destruct (key_required_before_setkey two_types "skcipher"
              (fresh_channel skcipher_type)
              [OpSetKey [1; 2; 3]; OpSetAuthSize 16; OpRead] OpWrite
              Hopen eq_refl eq_refl) as [Hbefore _].
  apply Hbefore. repeat constructor.
Defined.

(** The hash category provides key-less acceptance, so the same write
    goes through; the cipher's goes through once a key is set. *)
Example keyless_hash_proceeds :
  chan_open two_types "hash" = Some (fresh_channel hash_type) /\
  (chan_step (fresh_channel hash_type) OpWrite).1 = None /\
  (chan_step
     (chan_run (fresh_channel skcipher_type) [OpSetKey (replicate 16 0)])
     OpWrite).1 = None.
Proof. split_and!; vm_compute; reflexivity. Qed.

(** ** Further properties of the quota functions *)

Section Headroom.
Context `{arch : Arch} (ok : ArchOk arch).

Lemma quota_spec_multiple buf : quota_spec buf mod PAGE_SIZE = 0.
Proof.
  pose proof (page_size_bounds ok) as Hp. unfold quota_spec.
  destruct (Z.max_spec (PAGE_SIZE * (buf / PAGE_SIZE)) PAGE_SIZE)
    as [[_ ->] | [_ ->]].
  - apply Z_mod_same_full.
  - rewrite Z.mul_comm. apply Z_mod_mult.
Qed.

Lemma quota_spec_near buf :
  Z.max buf PAGE_SIZE - PAGE_SIZE < quota_spec buf <= Z.max buf PAGE_SIZE.
Proof.
  pose proof (page_size_bounds ok) as Hp. unfold quota_spec.
  assert (H0 : 0 < PAGE_SIZE) by lia.
  pose proof (Z.mul_div_le buf PAGE_SIZE H0).
  pose proof (Z.mul_succ_div_gt buf PAGE_SIZE H0). lia.
Qed.

Lemma quota_spec_mono b1 b2 : b1 <= b2 -> quota_spec b1 <= quota_spec b2.
Proof.
  intros Hle. pose proof (page_size_bounds ok) as Hp. unfold quota_spec.
  assert (b1 / PAGE_SIZE <= b2 / PAGE_SIZE) by (apply Z.div_le_mono; lia).
  nia.
Qed.

(** The value of either function on any counter in range. *)
Lemma headroom_value buf cnt :
  C.is_int buf -> 0 <= cnt <= quota_spec buf + 2 ^ 31 ->
  headroom (page_quota buf) cnt = Z.max (quota_spec buf - cnt) 0.
Proof. intros Hb Hc. by rewrite (headroom_quota ok). Qed.

(** X1. While the counter is within its quota, usage plus reported
    headroom is the quota: at most the configured buffer size (one page
    if that is smaller) and less than a page below it. Past the quota
    the headroom is 0; it never exceeds the configured size. *)
Theorem af_alg_buf_accounts_for_config (s : alg_sock) :
  sock_wf s ->
  (used (private s) <= quota_spec (sk_sndbuf (sk s)) + 2 ^ 31 ->
   af_alg_sndbuf s <= Z.max (sk_sndbuf (sk s)) PAGE_SIZE /\
   (used (private s) <= quota_spec (sk_sndbuf (sk s)) ->
    Z.max (sk_sndbuf (sk s)) PAGE_SIZE - PAGE_SIZE
      < used (private s) + af_alg_sndbuf s
      <= Z.max (sk_sndbuf (sk s)) PAGE_SIZE)) /\
  (rcvused (private s) <= quota_spec (sk_rcvbuf (sk s)) + 2 ^ 31 ->
   af_alg_rcvbuf s <= Z.max (sk_rcvbuf (sk s)) PAGE_SIZE /\
   (rcvused (private s) <= quota_spec (sk_rcvbuf (sk s)) ->
    Z.max (sk_rcvbuf (sk s)) PAGE_SIZE - PAGE_SIZE
      < rcvused (private s) + af_alg_rcvbuf s
      <= Z.max (sk_rcvbuf (sk s)) PAGE_SIZE)).
Proof.
  intros [Hs Hr Hu Hv]. unfold C.is_unsigned in Hu, Hv.
  unfold af_alg_sndbuf, af_alg_rcvbuf, alg_sk. cbv zeta.
  split; intros Hrange.
  - rewrite headroom_value by (done || lia).
    pose proof (quota_spec_near (sk_sndbuf (sk s))). lia.
  - rewrite headroom_value by (done || lia).
    pose proof (quota_spec_near (sk_rcvbuf (sk s))). lia.
Qed.

(** X2. Charging [n] bytes that fit in the reported headroom lowers the
    headroom by exactly [n], and giving back [n] charged bytes of a
    counter within its quota raises it by exactly [n]. *)
Theorem af_alg_buf_charge_uncharge (s : alg_sock) (n : Z) :
  sock_wf s -> 0 <= n ->
  (used (private s) <= quota_spec (sk_sndbuf (sk s)) + 2 ^ 31 ->
   (n <= af_alg_sndbuf s ->
    af_alg_sndbuf (set_used s (used (private s) + n))
    = af_alg_sndbuf s - n) /\
   (n <= used (private s) <= quota_spec (sk_sndbuf (sk s)) ->
    af_alg_sndbuf (set_used s (used (private s) - n))
    = af_alg_sndbuf s + n)) /\
  (rcvused (private s) <= quota_spec (sk_rcvbuf (sk s)) + 2 ^ 31 ->
   (n <= af_alg_rcvbuf s ->
    af_alg_rcvbuf (set_rcvused s (rcvused (private s) + n))
    = af_alg_rcvbuf s - n) /\
   (n <= rcvused (private s) <= quota_spec (sk_rcvbuf (sk s)) ->
    af_alg_rcvbuf (set_rcvused s (rcvused (private s) - n))
    = af_alg_rcvbuf s + n)).
Proof.
  intros [Hs Hr Hu Hv] Hn. unfold C.is_unsigned in Hu, Hv.
  unfold af_alg_sndbuf, af_alg_rcvbuf, alg_sk. cbv zeta. cbn.
  split; intros Hrange.
  - rewrite (headroom_value _ (used _)) by (done || lia).
    split; intros Hfit; rewrite headroom_value by (done || lia); lia.
  - rewrite (headroom_value _ (rcvused _)) by (done || lia).
    split; intros Hfit; rewrite headroom_value by (done || lia); lia.
Qed.

(** X3. When the counter is a multiple of the page size and in range,
    so is the headroom; the socket is then writable (readable) exactly
    when the counter is below its quota, and not writable exactly when
    no headroom is left. *)
Theorem af_alg_buf_page_aligned (s : alg_sock) :
  sock_wf s ->
  (used (private s) mod PAGE_SIZE = 0 ->
   used (private s) <= quota_spec (sk_sndbuf (sk s)) + 2 ^ 31 ->
   af_alg_sndbuf s mod PAGE_SIZE = 0 /\
   (af_alg_writable s = true <->
    used (private s) < quota_spec (sk_sndbuf (sk s))) /\
   (af_alg_writable s = false <-> af_alg_sndbuf s = 0)) /\
  (rcvused (private s) mod PAGE_SIZE = 0 ->
   rcvused (private s) <= quota_spec (sk_rcvbuf (sk s)) + 2 ^ 31 ->
   af_alg_rcvbuf s mod PAGE_SIZE = 0 /\
   (af_alg_readable s = true <->
    rcvused (private s) < quota_spec (sk_rcvbuf (sk s))) /\
   (af_alg_readable s = false <-> af_alg_rcvbuf s = 0)).
Proof.
  intros [Hs Hr Hu Hv]. unfold C.is_unsigned in Hu, Hv.
  pose proof (page_size_bounds ok) as Hp.
  assert (Hal : forall buf cnt, C.is_int buf -> cnt mod PAGE_SIZE = 0 ->
            0 <= cnt <= quota_spec buf + 2 ^ 31 ->
            headroom (page_quota buf) cnt mod PAGE_SIZE = 0 /\
            (PAGE_SIZE <= headroom (page_quota buf) cnt <->
             cnt < quota_spec buf) /\
            (~ PAGE_SIZE <= headroom (page_quota buf) cnt <->
             headroom (page_quota buf) cnt = 0)).
  { intros buf cnt Hb Hc Hrange. rewrite headroom_value by done.
    pose proof (quota_spec_multiple buf) as Hq.
    apply Z.mod_divide in Hq as [a Ha]; [| lia].
    apply Z.mod_divide in Hc as [b Hb']; [| lia].
    rewrite Ha, Hb'. rewrite Ha, Hb' in Hrange.
    destruct (Z.max_spec (a * PAGE_SIZE - b * PAGE_SIZE) 0)
      as [[Hlt ->] | [Hge ->]].
    - split; [apply Z.mod_0_l; lia |]. split; split; nia.
    - replace (a * PAGE_SIZE - b * PAGE_SIZE) with ((a - b) * PAGE_SIZE)
        in * by lia.
      split; [apply Z_mod_mult |].
      assert (Hd : a - b = 0 \/ 1 <= a - b) by nia.
      destruct Hd as [Hd | Hd].
      { assert (a = b) by lia. subst a. rewrite Z.sub_diag. cbn.
        split; split; lia. }
      assert (PAGE_SIZE <= (a - b) * PAGE_SIZE) by nia.
      split; split; try lia; nia. }
  split; intros Hmod Hrange.
  - destruct (Hal (sk_sndbuf (sk s)) (used (private s)))
      as (Hm & Hw & Hz); [done | done | lia |].
    split; [exact Hm |]. rewrite <- not_true_iff_false, (writable_iff ok).
    split; [exact Hw | exact Hz].
  - destruct (Hal (sk_rcvbuf (sk s)) (rcvused (private s)))
      as (Hm & Hw & Hz); [done | done | lia |].
    split; [exact Hm |]. rewrite <- not_true_iff_false, (readable_iff ok).
    split; [exact Hw | exact Hz].
Qed.

(** X4. With a configured size below two pages the quota is a single
    page, and the socket is writable (readable) only while nothing at all
    is charged. *)
Theorem af_alg_single_page_quota (s : alg_sock) :
  sock_wf s ->
  (sk_sndbuf (sk s) < 2 * PAGE_SIZE ->
   used (private s) <= PAGE_SIZE + 2 ^ 31 ->
   (af_alg_writable s = true <-> used (private s) = 0)) /\
  (sk_rcvbuf (sk s) < 2 * PAGE_SIZE ->
   rcvused (private s) <= PAGE_SIZE + 2 ^ 31 ->
   (af_alg_readable s = true <-> rcvused (private s) = 0)).
Proof.
  intros [Hs Hr Hu Hv]. unfold C.is_unsigned in Hu, Hv.
  pose proof (page_size_bounds ok) as Hp.
  assert (Hone : forall buf, buf < 2 * PAGE_SIZE -> quota_spec buf = PAGE_SIZE).
  { intros buf Hb. unfold quota_spec.
    assert (buf / PAGE_SIZE < 2) by (apply Z.div_lt_upper_bound; lia).
    nia. }
  split; intros Hsmall Hrange.
  - rewrite (writable_iff ok). unfold af_alg_sndbuf, alg_sk. cbv zeta.
    rewrite headroom_value by (rewrite ?Hone; done || lia).
    rewrite Hone by done. lia.
  - rewrite (readable_iff ok). unfold af_alg_rcvbuf, alg_sk. cbv zeta.
    rewrite headroom_value by (rewrite ?Hone; done || lia).
    rewrite Hone by done. lia.
Qed.

(** X5. For the same usage in range, a larger configured send buffer
    never gives less headroom, a writable socket stays writable, and two
    sizes in the same page give the same headroom. *)
Theorem af_alg_sndbuf_monotone_in_config (s1 s2 : alg_sock) :
  C.is_int (sk_sndbuf (sk s1)) -> C.is_int (sk_sndbuf (sk s2)) ->
  used (private s1) = used (private s2) ->
  0 <= used (private s1) <= quota_spec (sk_sndbuf (sk s1)) + 2 ^ 31 ->
  sk_sndbuf (sk s1) <= sk_sndbuf (sk s2) ->
  af_alg_sndbuf s1 <= af_alg_sndbuf s2 /\
  (af_alg_writable s1 = true -> af_alg_writable s2 = true) /\
  (sk_sndbuf (sk s1) / PAGE_SIZE = sk_sndbuf (sk s2) / PAGE_SIZE ->
   af_alg_sndbuf s1 = af_alg_sndbuf s2).
Proof.
  intros H1 H2 Hu Hrange Hle.
  pose proof (quota_spec_mono _ _ Hle) as Hq.
  assert (Hmono : af_alg_sndbuf s1 <= af_alg_sndbuf s2).
  { unfold af_alg_sndbuf, alg_sk. cbv zeta. rewrite <- Hu.
    rewrite !headroom_value by (done || lia). lia. }
  split_and!.
  - exact Hmono.
  - rewrite !(writable_iff ok). lia.
  - intros Hpage. unfold af_alg_sndbuf, alg_sk. cbv zeta. rewrite <- Hu.
    rewrite !(page_quota_spec ok) by done. unfold quota_spec.
    by rewrite Hpage.
Qed.

(** X6. The headroom only sees the low 32 bits of the counter: usage
    values that differ by a multiple of 2^32 get the same headroom and
    the same writable (readable) answer. *)
Theorem af_alg_buf_period_2_32 (s : alg_sock) (k : Z) :
  af_alg_sndbuf (set_used s (used (private s) + k * 2 ^ 32))
  = af_alg_sndbuf s /\
  af_alg_writable (set_used s (used (private s) + k * 2 ^ 32))
  = af_alg_writable s /\
  af_alg_rcvbuf (set_rcvused s (rcvused (private s) + k * 2 ^ 32))
  = af_alg_rcvbuf s /\
  af_alg_readable (set_rcvused s (rcvused (private s) + k * 2 ^ 32))
  = af_alg_readable s.
Proof.
  assert (Hper : forall q cnt,
            headroom q (cnt + k * 2 ^ 32) = headroom q cnt).
  { intros q cnt. rewrite !(headroom_to_int ok). f_equal.
    replace (q - (cnt + k * 2 ^ 32)) with (q - cnt + (- k) * 2 ^ 32) by lia.
    apply to_int_shift. }
  unfold af_alg_writable, af_alg_readable, af_alg_sndbuf, af_alg_rcvbuf,
    alg_sk. cbv zeta. cbn. by rewrite !Hper.
Qed.

(** X7. Larger structures leave room for fewer entries: with sizes that
    let the header and one slot fit in 4096 bytes, [MAX_SGL_ENTS] does not
    grow when either size grows. *)
Theorem max_sgl_ents_antitone (t1 s1 t2 s2 : Z) :
  0 <= t1 <= t2 -> 0 < s1 <= s2 -> t2 + s2 <= 4096 ->
  MAX_SGL_ENTS t2 s2 <= MAX_SGL_ENTS t1 s1.
Proof.
  intros Ht Hs Hfit.
  assert (Hw : 4096 < 2 ^ BITS_PER_LONG)
    by (destruct (long_bits _ ok) as [-> | ->]; lia).
  assert (Hval : forall t s, 0 <= t -> 0 < s -> t + s <= 4096 ->
            MAX_SGL_ENTS t s = (4096 - t) / s - 1).
  { intros t s Ht0 Hs0 Hf. unfold MAX_SGL_ENTS, to_size_t, C.to_unsigned.
    rewrite (Z.mod_small (4096 - t)) by lia.
    assert (1 <= (4096 - t) / s) by (apply Z.div_le_lower_bound; lia).
    assert ((4096 - t) / s <= 4096 - t)
      by (apply Z.div_le_upper_bound; nia).
    apply Z.mod_small. lia. }
  rewrite !Hval by lia.
  assert ((4096 - t2) / s2 <= (4096 - t1) / s2)
    by (apply Z.div_le_mono; lia).
  assert ((4096 - t1) / s2 <= (4096 - t1) / s1)
    by (apply Z.div_le_compat_l; lia).
  lia.
Qed.

End Headroom.

(** X8. The results do not depend on the width of [long]: on two targets
    with the same page size, one 32-bit and one 64-bit or alike, the four
    functions agree on every socket state both can represent. *)
Theorem af_alg_buf_word_size_independent (a1 a2 : Arch) (s : alg_sock) :
  ArchOk a1 -> ArchOk a2 ->
  PAGE_SHIFT (Arch := a1) = PAGE_SHIFT (Arch := a2) ->
  sock_wf (arch := a1) s -> sock_wf (arch := a2) s ->
  af_alg_sndbuf (arch := a1) s = af_alg_sndbuf (arch := a2) s /\
  af_alg_rcvbuf (arch := a1) s = af_alg_rcvbuf (arch := a2) s /\
  af_alg_writable (arch := a1) s = af_alg_writable (arch := a2) s /\
  af_alg_readable (arch := a1) s = af_alg_readable (arch := a2) s.
Proof.
  intros ok1 ok2 Hshift [Hs Hr _ _] _.
  assert (Hps : PAGE_SIZE (Arch := a1) = PAGE_SIZE (Arch := a2))
    by (rewrite (page_size_pow ok1), (page_size_pow ok2); by f_equal).
  assert (Hh : forall buf cnt, C.is_int buf ->
            headroom (arch := a1) (page_quota (arch := a1) buf) cnt
            = headroom (arch := a2) (page_quota (arch := a2) buf) cnt).
  { intros buf cnt Hb.
    rewrite (headroom_to_int ok1), (headroom_to_int ok2).
    rewrite (page_quota_spec ok1), (page_quota_spec ok2) by done.
    unfold quota_spec. by rewrite Hps. }
  unfold af_alg_writable, af_alg_readable, af_alg_sndbuf, af_alg_rcvbuf,
    alg_sk. cbv zeta.
  rewrite (to_ulong_headroom ok1), (to_ulong_headroom ok2).
  rewrite (to_ulong_headroom ok1), (to_ulong_headroom ok2).
  rewrite Hps, !Hh by done. done.
Qed.

Lemma af_alg_buf_accounts_for_config_witness :
  sock_wf (arch := x86_64) (sock_with 10000 5000 3000 0) /\
  10000 - 4096 < 3000 + af_alg_sndbuf (arch := x86_64)
                          (sock_with 10000 5000 3000 0) <= 10000.
Proof.
  assert (Hwf : sock_wf (arch := x86_64) (sock_with 10000 5000 3000 0))
    by solve_sock_wf.
  split; [exact Hwf |].
  destruct (af_alg_buf_accounts_for_config x86_64_ok _ Hwf) as [Hsnd _].
  destruct Hsnd as [_ Hsum]; [vm_compute; discriminate |].
  apply Hsum. vm_compute. discriminate.
Defined.

Lemma af_alg_buf_charge_uncharge_witness :
  sock_wf (arch := x86_64) (sock_with 8192 8192 1000 0) /\
  af_alg_sndbuf (arch := x86_64) (set_used (sock_with 8192 8192 1000 0) 1500)
  = af_alg_sndbuf (arch := x86_64) (sock_with 8192 8192 1000 0) - 500.
Proof.
  assert (Hwf : sock_wf (arch := x86_64) (sock_with 8192 8192 1000 0))
    by solve_sock_wf.
  assert (Hn : 0 <= 500) by lia.
  split; [exact Hwf |].
  destruct (af_alg_buf_charge_uncharge x86_64_ok _ 500 Hwf Hn) as [Hsnd _].
  destruct Hsnd as [Hch _]; [vm_compute; discriminate |].
  apply Hch. vm_compute. discriminate.
Defined.

Lemma af_alg_buf_page_aligned_witness :
  sock_wf (arch := x86_64) (sock_with 12288 4096 8192 4096) /\
  af_alg_writable (arch := x86_64) (sock_with 12288 4096 8192 4096) = true /\
  af_alg_rcvbuf (arch := x86_64) (sock_with 12288 4096 8192 4096) = 0.
Proof.
  assert (Hwf : sock_wf (arch := x86_64) (sock_with 12288 4096 8192 4096))
    by solve_sock_wf.
  split; [exact Hwf |].
  destruct (af_alg_buf_page_aligned x86_64_ok _ Hwf) as [Hsnd Hrcv].
  split.
  - destruct Hsnd as (_ & Hw & _);
      [reflexivity | vm_compute; discriminate |].
    apply Hw. vm_compute. reflexivity.
  - destruct Hrcv as (_ & _ & Hz);
      [reflexivity | vm_compute; discriminate |].
    apply Hz. reflexivity.
Defined.

Lemma af_alg_single_page_quota_witness :
  sock_wf (arch := x86_64) (sock_with 8191 8192 1 0) /\
  af_alg_writable (arch := x86_64) (sock_with 8191 8192 1 0) <> true.
Proof.
  assert (Hwf : sock_wf (arch := x86_64) (sock_with 8191 8192 1 0))
    by solve_sock_wf.
  split; [exact Hwf |].
  destruct (af_alg_single_page_quota x86_64_ok _ Hwf) as [Hsnd _].
  intros Hw. apply Hsnd in Hw.
  - discriminate Hw.
  - vm_compute. reflexivity.
  - vm_compute. discriminate.
Defined.

Lemma af_alg_sndbuf_monotone_in_config_witness :
  af_alg_sndbuf (arch := x86_64) (sock_with 8192 0 5000 0)
  <= af_alg_sndbuf (arch := x86_64) (sock_with 20000 0 5000 0) /\
  af_alg_sndbuf (arch := x86_64) (sock_with 8192 0 5000 0)
  = af_alg_sndbuf (arch := x86_64) (sock_with 12287 0 5000 0).
Proof.
  assert (H1 : C.is_int 8192) by (unfold C.is_int; lia).
  assert (H2 : C.is_int 20000) by (unfold C.is_int; lia).
  assert (H3 : C.is_int 12287) by (unfold C.is_int; lia).
  assert (Hr : 0 <= 5000 <= quota_spec (arch := x86_64) 8192 + 2 ^ 31)
    by (vm_compute; split; discriminate).
  assert (Hle : 8192 <= 20000) by lia.
  assert (Hle' : 8192 <= 12287) by lia.
  split.
  - apply (af_alg_sndbuf_monotone_in_config x86_64_ok
             (sock_with 8192 0 5000 0) (sock_with 20000 0 5000 0)
             H1 H2 eq_refl Hr Hle).
  - apply (af_alg_sndbuf_monotone_in_config x86_64_ok
             (sock_with 8192 0 5000 0) (sock_with 12287 0 5000 0)
             H1 H3 eq_refl Hr Hle').
    reflexivity.
Defined.

Lemma af_alg_buf_period_2_32_witness :
  af_alg_sndbuf (arch := x86_64) (sock_with 8192 8192 (100 + 3 * 2 ^ 32) 0)
  = af_alg_sndbuf (arch := x86_64) (sock_with 8192 8192 100 0).
Proof.
  apply (af_alg_buf_period_2_32 x86_64_ok (sock_with 8192 8192 100 0) 3).
Defined.

Lemma max_sgl_ents_antitone_witness :
  MAX_SGL_ENTS (arch := x86_64) 24 40 <= MAX_SGL_ENTS (arch := x86_64) 24 32.
Proof.
  apply (max_sgl_ents_antitone x86_64_ok 24 32 24 40); lia.
Defined.

Lemma af_alg_buf_word_size_independent_witness :
  sock_wf (arch := i386) (sock_with 70000 9000 12345 4097) /\
  sock_wf (arch := x86_64) (sock_with 70000 9000 12345 4097) /\
  af_alg_sndbuf (arch := i386) (sock_with 70000 9000 12345 4097)
  = af_alg_sndbuf (arch := x86_64) (sock_with 70000 9000 12345 4097).
Proof.
  assert (H32 : sock_wf (arch := i386) (sock_with 70000 9000 12345 4097))
    by solve_sock_wf.
  assert (H64 : sock_wf (arch := x86_64) (sock_with 70000 9000 12345 4097))
    by solve_sock_wf.
  split; [exact H32 |]. split; [exact H64 |].
  apply (af_alg_buf_word_size_independent i386 x86_64 _
           i386_ok x86_64_ok eq_refl H32 H64).
Defined.
